(** * WebSocket TicTacToe: the server's session logic and the loop client

    A shallow embedding of [server.js] (the whole game logic) and of the
    command loop of [client.js], followed by the properties of the
    specification that can be stated on them.

    Modelling choices, all visible in the definitions below:
    - the three module variables of [server.js] ([firstPlayerSocket],
      [secondPlayerSocket], [board]) are the first three fields of [state];
    - a socket is a number; the [socket.on] registrations made by
      [setupSocket] are kept in [listeners], in registration order, one
      entry per call (each call registers the four handlers, all closed over
      the same [socket] and [symbol]);
    - what the server does to the outside ([socket.emit],
      [socket.disconnect], [console.error], the acknowledgement [next()])
      is appended to the trace [sent]; a board that is sent is the board as
      it is at that moment;
    - the transport library is not part of the repository: an incoming
      message or a closed connection is an [event] given to [handle]. Of
      the library itself the model has what [cleanUp] depends on: a socket
      is connected until its connection ends ([closed] lists the sockets
      that are not); [socket.disconnect()] on a connected socket ends the
      connection and runs the socket's ['disconnect'] listeners at once,
      before it returns, and does nothing on a socket that is no longer
      connected. Every call of [socket.emit] and of [socket.disconnect] is
      an entry of the trace, whatever the state of the socket;
    - [turn_taken] is handled as the loop client sends it, with the
      acknowledgement callback [next]; the position arrives as the value
      [Number] gives for it. *)

From Stdlib Require Import ZArith QArith Lia.
From Stdlib Require Qcanon.
From stdpp Require Import base list strings.

Open Scope string_scope.
Open Scope list_scope.

(** ** Data *)

(** A board cell: ['.'], ['x'] or ['o']. *)
Inductive symbol := Dot | X | O.

#[global] Instance symbol_eq_dec : EqDecision symbol.
Proof. solve_decision. Defined.

Definition socket := nat.

(** The data sent along with an event. *)
Inductive payload :=
| PNull
| PStr (s : string)
| PBoard (b : list symbol).

Inductive effect :=
| Emit (to : socket) (event : string) (data : payload)
| SockDisconnect (s : socket)
| ConsoleError (msg : string)
| Next (s : socket).

Record state := mkState {
  firstPlayerSocket : option socket;
  secondPlayerSocket : option socket;
  board : list symbol;
  listeners : list (socket * symbol);
  sent : list effect;
  closed : list socket
}.

Definition set_first (o : option socket) (st : state) : state :=
  mkState o (secondPlayerSocket st) (board st) (listeners st) (sent st) (closed st).

Definition set_second (o : option socket) (st : state) : state :=
  mkState (firstPlayerSocket st) o (board st) (listeners st) (sent st) (closed st).

Definition set_board (b : list symbol) (st : state) : state :=
  mkState (firstPlayerSocket st) (secondPlayerSocket st) b (listeners st) (sent st)
          (closed st).

Definition add_listener (l : socket * symbol) (st : state) : state :=
  mkState (firstPlayerSocket st) (secondPlayerSocket st) (board st)
          (listeners st ++ [l]) (sent st) (closed st).

Definition log (e : effect) (st : state) : state :=
  mkState (firstPlayerSocket st) (secondPlayerSocket st) (board st)
          (listeners st) (sent st ++ [e]) (closed st).

(** The connection of socket [s] has ended. *)
Definition close (s : socket) (st : state) : state :=
  mkState (firstPlayerSocket st) (secondPlayerSocket st) (board st)
          (listeners st) (sent st) (s :: closed st).

(** [!socket.connected] *)
Definition is_closed (s : socket) (st : state) : bool :=
  bool_decide (s ∈ closed st).

(** [let board = ['.', '.', '.', '.', '.', '.', '.', '.', '.']] *)
Definition empty_board : list symbol :=
  [Dot; Dot; Dot; Dot; Dot; Dot; Dot; Dot; Dot].

(** The module state when the server starts. *)
Definition init : state := mkState None None empty_board [] [] [].

(** ** JavaScript values met by the game logic *)

(** Line scores are sums of [1] and [-1], or what JavaScript makes of a
    missing return value. *)
Inductive jsval :=
| JUndefined
| JNaN
| JNum (z : Z).

(** [a + b] on these values: both operands are converted to numbers, and
    [undefined] converts to [NaN]. *)
Definition js_add (a b : jsval) : jsval :=
  match a, b with
  | JNum x, JNum y => JNum (x + y)
  | _, _ => JNaN
  end.

(** [v == n] for a number literal [n]. *)
Definition js_eq_num (v : jsval) (n : Z) : bool :=
  match v with
  | JNum z => Z.eqb z n
  | _ => false
  end.

(** The value of [Number(position)]: the conversion is JavaScript's own.
    A finite double is a rational. Subtracting [1] from it is exact from [1]
    up to [2^53]; below, the rounded result stays negative, and above, it
    stays far beyond the board, so the tests of the handler decide as the
    exact difference does. *)
Inductive number :=
| NaN
| Infinity (negative : bool)
| Finite (q : Q).

Definition js_pred (n : number) : number :=
  match n with
  | Finite q => Finite (q - 1)
  | _ => n
  end.

Definition isNaN (n : number) : bool :=
  match n with NaN => true | _ => false end.

(** [n < 0] *)
Definition js_neg (n : number) : bool :=
  match n with
  | NaN => false
  | Infinity negative => negative
  | Finite q => negb (Qle_bool 0 q)
  end.

(** [n >= len] *)
Definition js_ge (n : number) (len : nat) : bool :=
  match n with
  | NaN => false
  | Infinity negative => negb negative
  | Finite q => Qle_bool (inject_Z (Z.of_nat len)) q
  end.

(** The array index a number denotes as a property key, if it denotes one:
    a non-negative integer. Any other key names no element. *)
Definition array_index (n : number) : option nat :=
  match n with
  | Finite q =>
      let r := Qred q in
      if (Pos.eqb (Qden r) 1 && Z.leb 0 (Qnum r))%bool
      then Some (Z.to_nat (Qnum r)) else None
  | _ => None
  end.

(** ** server.js *)

Definition emit (s : socket) (event : string) (data : payload) (st : state) : state :=
  log (Emit s event data) st.

Definition emitToAll (event : string) (data : payload) (st : state) : state :=
  let st := match firstPlayerSocket st with
            | Some s => emit s event data st
            | None => st
            end in
  match secondPlayerSocket st with
  | Some s => emit s event data st
  | None => st
  end.

(** [symbol == 'x' ? 'second' : 'first'], the variable [otherPlayerOrdinal]
    of [setupSocket]. *)
Definition otherPlayerOrdinal (symbol : symbol) : string :=
  match symbol with X => "second" | _ => "first" end.

(** The symbols [setupSocket] was called with for socket [s], oldest first. *)
Definition registered (s : socket) (ls : list (socket * symbol)) : list symbol :=
  omap (fun l => if decide (l.1 = s) then Some l.2 else None) ls.

(** [cleanUp] calls [socket.disconnect()], which runs the ['disconnect']
    listeners of the socket, and these call [announceWinnerByDisconnection],
    which calls [cleanUp]: the three are defined together. The body of
    [announceWinnerByDisconnection] comes first, with the [cleanUp] it calls
    as a parameter. *)
Definition announceWinnerByDisconnection_with (cleanUp : state -> state)
    (winner : string) (st : state) : state :=
  let other := if String.eqb winner "first" then "second" else "first" in
  cleanUp (emitToAll "game_over"
             (PStr ("won by " +:+ winner +:+ " player since " +:+ other
                    +:+ " player disconnected")) st).

(** The ['disconnect'] listeners of [s], one for each call of [setupSocket]
    on [s], run in registration order; the listeners are those registered
    when the run begins. *)
Definition disconnect_listeners (cleanUp : state -> state) (s : socket) (st : state)
    : state :=
  fold_left (fun st symbol =>
               announceWinnerByDisconnection_with cleanUp (otherPlayerOrdinal symbol) st)
            (registered s (listeners st)) st.

(** [socket.disconnect()]: nothing happens on a socket that is not
    connected; otherwise the connection ends and the listeners of
    ['disconnect'] run before the call returns. *)
Definition disconnect (run_listeners : socket -> state -> state) (s : socket)
    (st : state) : state :=
  let st := log (SockDisconnect s) st in
  if is_closed s st then st else run_listeners s (close s st).

(** [cleanUp], with the [disconnect] of the sockets as a parameter. *)
Definition cleanUp_with (disconnect : socket -> state -> state) (st : state) : state :=
  let st := match firstPlayerSocket st with
            | Some s => set_first None (disconnect s st)
            | None => st
            end in
  let st := match secondPlayerSocket st with
            | Some s => set_second None (disconnect s st)
            | None => st
            end in
  set_board empty_board st.

(** [cleanUp] at a given depth of nesting: a [cleanUp] runs nested in
    another only through a listener, a listener runs only for a socket
    that was connected, and the nested [cleanUp] meets one connected socket
    less. At depth [0] no listener is left to run. *)
Fixpoint cleanUp_at (depth : nat) (st : state) : state :=
  cleanUp_with
    (disconnect (fun s st =>
                   match depth with
                   | 0%nat => st
                   | S depth' => disconnect_listeners (cleanUp_at depth') s st
                   end))
    st.

(** There are two players' sockets, so depth [2] is never exhausted
    ([cleanUp_at_enough]). *)
Definition cleanUp (st : state) : state := cleanUp_at 2 st.

Definition announceWinner (who : string) (st : state) : state :=
  cleanUp (emitToAll "game_over" (PStr ("won by " +:+ who +:+ " player")) st).

Definition announceWinnerByDisconnection (winner : string) (st : state) : state :=
  announceWinnerByDisconnection_with cleanUp winner st.

Definition announceWinnerByResignation (winner : string) (st : state) : state :=
  cleanUp (emitToAll "game_over"
             (PStr ("won by " +:+ winner +:+ " player due to resignation")) st).

Definition announceTie (st : state) : state :=
  cleanUp (emitToAll "game_over" (PStr "is tied") st).

Definition determineWinnerFromSum (sum : jsval) (st : state) : bool * state :=
  if js_eq_num sum 3 then (true, announceWinner "first" st)
  else if js_eq_num sum (-3) then (true, announceWinner "second" st)
  else (false, st).

(** The argument is an element read from the board, [None] when the read
    finds nothing. There is no branch for ['.']: the function then returns
    nothing, which is [undefined]. *)
Definition symbolToScore (symbol : option symbol) : jsval :=
  match symbol with
  | Some X => JNum 1
  | Some O => JNum (-1)
  | _ => JUndefined
  end.

(** The inner loops of [checkForGameOver]: [sum] starts at [0] and
    [sum += symbolToScore(board[row * 3 + col])] runs for the three cells. *)
Definition row_sum (b : list symbol) (row : nat) : jsval :=
  fold_left (fun sum col => js_add sum (symbolToScore (b !! (row * 3 + col)%nat)))
            [0; 1; 2]%nat (JNum 0).

Definition col_sum (b : list symbol) (col : nat) : jsval :=
  fold_left (fun sum row => js_add sum (symbolToScore (b !! (row * 3 + col)%nat)))
            [0; 1; 2]%nat (JNum 0).

Definition diagonal1Sum (b : list symbol) : jsval :=
  js_add (js_add (symbolToScore (b !! 0%nat)) (symbolToScore (b !! 4%nat)))
         (symbolToScore (b !! 8%nat)).

Definition diagonal2Sum (b : list symbol) : jsval :=
  js_add (js_add (symbolToScore (b !! 2%nat)) (symbolToScore (b !! 4%nat)))
         (symbolToScore (b !! 6%nat)).

(** An outer loop of [checkForGameOver]: it returns as soon as
    [determineWinnerFromSum] answers [true]. *)
Fixpoint check_lines (sum_of : list symbol -> nat -> jsval) (idx : list nat)
    (st : state) : bool * state :=
  match idx with
  | [] => (false, st)
  | i :: rest =>
      let (won, st') := determineWinnerFromSum (sum_of (board st) i) st in
      if won then (true, st') else check_lines sum_of rest st'
  end.

Definition is_dot (s : symbol) : bool :=
  match s with Dot => true | _ => false end.

Definition checkForGameOver (st : state) : bool * state :=
  let (won, st) := check_lines row_sum [0; 1; 2]%nat st in
  if won then (true, st) else
  let (won, st) := check_lines col_sum [0; 1; 2]%nat st in
  if won then (true, st) else
  let (won, st) := determineWinnerFromSum (diagonal1Sum (board st)) st in
  if won then (true, st) else
  let (won, st) := determineWinnerFromSum (diagonal2Sum (board st)) st in
  if won then (true, st) else
  if existsb is_dot (board st) then (false, st)
  else (true, announceTie st).

(** A handler either returns or throws; only a call on [null] throws here. *)
Inductive result :=
| Ok (st : state)
| Throw (err : string) (st : state).

Definition on_disconnect (socket : socket) (symbol : symbol) (st : state) : result :=
  Ok (announceWinnerByDisconnection (otherPlayerOrdinal symbol) st).

Definition on_resign (socket : socket) (symbol : symbol) (st : state) : result :=
  Ok (announceWinnerByResignation (otherPlayerOrdinal symbol) st).

Definition msg_parse : string :=
  "couldn't parse position. enter a number from 1-9.".
Definition msg_bounds : string :=
  "that position is out of bounds. enter a number from 1-9.".
Definition msg_occupied : string :=
  "that position is occupied. try again.".

(** The [turn_taken] handler. [input] is the value of [Number(position)];
    [next] is the acknowledgement the loop client passes along. *)
Definition on_turn_taken (socket : socket) (symbol : symbol) (input : number)
    (st : state) : result :=
  let position := js_pred input in
  let reject msg := Ok (log (Next socket) (emit socket "turn" (PStr msg) st)) in
  if isNaN position then reject msg_parse
  else if (js_neg position || js_ge position (length (board st)))%bool
  then reject msg_bounds
  else
    match array_index position with
    | None => reject msg_occupied
    | Some i =>
        if decide (board st !! i = Some Dot) then
          let st := set_board (<[i := symbol]> (board st)) st in
          let st := emitToAll "board_update" (PBoard (board st)) st in
          let (over, st) := checkForGameOver st in
          if over then Ok (log (Next socket) st)
          else
            let to := match symbol with
                      | X => secondPlayerSocket st
                      | _ => firstPlayerSocket st
                      end in
            match to with
            | Some s => Ok (log (Next socket) (emit s "turn" PNull st))
            | None => Throw "TypeError" st
            end
        else reject msg_occupied
    end.

(** [symbol == 'x' ? 'first' : 'second'], the player who owns [symbol]. *)
Definition ordinal (symbol : symbol) : string :=
  match symbol with X => "first" | _ => "second" end.

Definition on_turn_error (socket : socket) (symbol : symbol) (err : string)
    (st : state) : result :=
  let st := log (ConsoleError (ordinal symbol +:+ " player had an error with input ("
                               +:+ err +:+ "). assuming disconnection.")) st in
  Ok (announceWinnerByDisconnection (otherPlayerOrdinal symbol) st).

Definition setupSocket (socket : socket) (symbol : symbol) (st : state) : state :=
  add_listener (socket, symbol) st.

Definition msg_reject : string :=
  "you can't connect now! there are already two players connected.".

(** The [io.on('connection', ...)] handler. *)
Definition on_connection (socket : socket) (st : state) : state :=
  let st := match firstPlayerSocket st with
            | None => set_first (Some socket) st
            | Some _ =>
                match secondPlayerSocket st with
                | None => set_second (Some socket) st
                | Some _ => emit socket "reject" (PStr msg_reject) st
                end
            end in
  match firstPlayerSocket st, secondPlayerSocket st with
  | Some p1, Some p2 =>
      let st := setupSocket p1 X st in
      let st := setupSocket p2 O st in
      let st := emit p1 "game_start" (PStr "first") st in
      let st := emit p2 "game_start" (PStr "second") st in
      emit p1 "turn" PNull st
  | _, _ => st
  end.

(** ** Events *)

(** What reaches the server: a new connection, a message of a client, or
    the end of a connection that the server did not end itself
    ([Disconnect]: the socket is no longer connected when its listeners
    run). *)
Inductive event :=
| Connection (s : socket)
| Disconnect (s : socket)
| Resign (s : socket)
| TurnTaken (s : socket) (input : number)
| TurnError (s : socket) (err : string).

(** The handlers registered on [s] for an event run in registration order;
    one that throws ends the run. *)
Fixpoint dispatch (ls : list (socket * symbol))
    (handler : socket -> symbol -> state -> result) (s : socket) (st : state) : result :=
  match ls with
  | [] => Ok st
  | (s', symbol) :: rest =>
      if decide (s' = s) then
        match handler s' symbol st with
        | Ok st' => dispatch rest handler s st'
        | Throw err st' => Throw err st'
        end
      else dispatch rest handler s st
  end.

Definition handle (e : event) (st : state) : result :=
  match e with
  | Connection s => Ok (on_connection s st)
  | Disconnect s => dispatch (listeners st) on_disconnect s (close s st)
  | Resign s => dispatch (listeners st) on_resign s st
  | TurnTaken s input =>
      dispatch (listeners st) (fun s' symbol => on_turn_taken s' symbol input) s st
  | TurnError s err =>
      dispatch (listeners st) (fun s' symbol => on_turn_error s' symbol err) s st
  end.

(** ** client.js, the command loop *)

(** What the loop body does: a message to the server, a line on the
    console, or the call of [next] that asks for another command. *)
Inductive client_action :=
| SendResign
| SendTurnError (err : string)
| SendTurnTaken (position : option string)
| PrintError (msg : string)
| CallNext.

Definition msg_wait : string := "it's not your turn yet!".

(** The callback of [readcommand.loop]: [err] is the read error, if any,
    [arg0] is [args[0]], and [isTurn] is the client's flag; the result
    carries the flag's new value. *)
Definition on_command (err : option string) (arg0 : option string) (isTurn : bool)
    : list client_action * bool :=
  if decide (arg0 = Some "r") then ([SendResign], isTurn)
  else if isTurn then
    (match err with
     | Some e => [SendTurnError e]
     | None => [SendTurnTaken arg0]
     end, false)
  else ([PrintError msg_wait; CallNext], isTurn).

(** ** The turn token *)

(** The server keeps no record of whose turn it is. It grants the turn by
    emitting [turn]; the endpoint granted last holds the token. *)
Fixpoint turn_holder_from (holder : option socket) (es : list effect) : option socket :=
  match es with
  | [] => holder
  | Emit to event _ :: rest =>
      turn_holder_from (if String.eqb event "turn" then Some to else holder) rest
  | _ :: rest => turn_holder_from holder rest
  end.

Definition turn_holder (st : state) : option socket :=
  turn_holder_from None (sent st).

(** ** Lines of the board *)

(** The eight lines in the order [checkForGameOver] examines them. *)
Definition lines : list (list nat) :=
  [[0; 1; 2]; [3; 4; 5]; [6; 7; 8];
   [0; 3; 6]; [1; 4; 7]; [2; 5; 8];
   [0; 4; 8]; [2; 4; 6]]%nat.

(** The sums [checkForGameOver] computes, in that order. *)
Definition line_sums (b : list symbol) : list jsval :=
  [row_sum b 0; row_sum b 1; row_sum b 2;
   col_sum b 0; col_sum b 1; col_sum b 2;
   diagonal1Sum b; diagonal2Sum b].

(** A line is complete for [m] when its three cells hold [m]. *)
Definition line_full (b : list symbol) (m : symbol) (l : list nat) : Prop :=
  Forall (fun k => b !! k = Some m) l.

#[global] Instance line_full_dec b m l : Decision (line_full b m l).
Proof. unfold line_full. apply _. Defined.

(** The sum of a line given by its three cell indices. *)
Definition line_sum (b : list symbol) (l : list nat) : jsval :=
  fold_left (fun sum k => js_add sum (symbolToScore (b !! k))) l (JNum 0).

(** The first sum that decides the game, as [determineWinnerFromSum] reads
    the sums one after the other. *)
Fixpoint first_decisive (sums : list jsval) : option string :=
  match sums with
  | [] => None
  | sum :: rest =>
      if js_eq_num sum 3 then Some "first"
      else if js_eq_num sum (-3) then Some "second"
      else first_decisive rest
  end.

Definition opponent (m : symbol) : symbol :=
  match m with X => O | O => X | Dot => Dot end.

(** The score the specification gives a cell, and the sum of a line under it. *)
Definition score_spec (c : option symbol) : Z :=
  match c with
  | Some X => 1
  | Some O => -1
  | _ => 0
  end.

Definition line_sum_spec (b : list symbol) (l : list nat) : Z :=
  fold_left (fun sum k => (sum + score_spec (b !! k))%Z) l 0%Z.

(** A game is running between [a] (first) and [b] (second): both variables
    are set and each socket carries handlers for its own symbol only. *)
Definition in_progress (a b : socket) (st : state) : Prop :=
  firstPlayerSocket st = Some a /\ secondPlayerSocket st = Some b /\
  length (board st) = 9%nat /\
  registered a (listeners st) <> [] /\ Forall (eq X) (registered a (listeners st)) /\
  registered b (listeners st) <> [] /\ Forall (eq O) (registered b (listeners st)).

(** The same, with [setupSocket] run once for each socket. *)
Definition started (a b : socket) (st : state) : Prop :=
  firstPlayerSocket st = Some a /\ secondPlayerSocket st = Some b /\
  length (board st) = 9%nat /\
  registered a (listeners st) = [X] /\ registered b (listeners st) = [O].

(** What a step added to the trace. *)
Definition response (st st' : state) : list effect :=
  drop (length (sent st)) (sent st').

(** * Notions used in the properties *)

(** Announcing an outcome: [game_over] to the connected players, then
    [cleanUp]. *)
Definition announce (text : string) (st : state) : state :=
  cleanUp (emitToAll "game_over" (PStr text) st).

(** The input a player types for cell [n], counted from 1. *)
Definition typed (n : Z) : number := Finite (inject_Z n).

(** Running the handlers registered with the given symbols, in order. *)
Fixpoint run_handlers (handler : symbol -> state -> result) (syms : list symbol)
    (st : state) : result :=
  match syms with
  | [] => Ok st
  | symbol :: rest =>
      match handler symbol st with
      | Ok st' => run_handlers handler rest st'
      | Throw err st' => Throw err st'
      end
  end.

(** The state after a rejection: the prompt goes to the submitting socket
    and the client is told it may submit again. *)
Definition rejected (socket : socket) (msg : string) (st : state) : state :=
  log (Next socket) (emit socket "turn" (PStr msg) st).

(** The last branch of the [turn_taken] handler on its own, entered with
    the index of an empty cell ([on_turn_taken_accepted]). *)
Definition accept_move (socket : socket) (symbol : symbol) (i : nat) (st : state)
    : result :=
  let st := set_board (<[i := symbol]> (board st)) st in
  let st := emitToAll "board_update" (PBoard (board st)) st in
  let (over, st) := checkForGameOver st in
  if over then Ok (log (Next socket) st)
  else
    let to := match symbol with
              | X => secondPlayerSocket st
              | _ => firstPlayerSocket st
              end in
    match to with
    | Some s => Ok (log (Next socket) (emit s "turn" PNull st))
    | None => Throw "TypeError" st
    end.

(** The position passes the first two tests of the handler. *)
Definition in_bounds (b : list symbol) (input : number) : Prop :=
  isNaN (js_pred input) = false /\
  js_neg (js_pred input) = false /\
  js_ge (js_pred input) (length b) = false.

(** The board and the trace after the cell is written and the board sent. *)
Definition written (symbol : symbol) (i : nat) (st : state) : state :=
  emitToAll "board_update" (PBoard (<[i := symbol]> (board st)))
            (set_board (<[i := symbol]> (board st)) st).

(** The socket of the player who moves after [symbol]. *)
Definition next_player (symbol : symbol) (st : state) : option socket :=
  match symbol with
  | X => secondPlayerSocket st
  | _ => firstPlayerSocket st
  end.

(** A game between sockets [a] and [b] on board [bd], with nothing sent yet. *)
Definition session (a b : socket) (bd : list symbol) : state :=
  mkState (Some a) (Some b) bd [(a, X); (b, O)] [] [].

(** No player has completed line [l]. *)
Definition incomplete (b : list symbol) (l : list nat) : Prop :=
  ~ line_full b X l /\ ~ line_full b O l.

(** The state a handler leaves, whether it returned or threw. *)
Definition final (r : result) : state :=
  match r with
  | Ok st => st
  | Throw _ st => st
  end.

(** The text of the [game_over] notification after the board [bd] ended
    the game. *)
Definition outcome_text (bd : list symbol) : string :=
  match first_decisive (line_sums bd) with
  | Some who => "won by " +:+ who +:+ " player"
  | None => "is tied"
  end.

(** The game is over on [bd]: a line decides, or no cell is empty. *)
Definition game_over_on (bd : list symbol) : bool :=
  match first_decisive (line_sums bd) with
  | Some _ => true
  | None => negb (existsb is_dot bd)
  end.

(** What [emitToAll] adds to the trace. *)
Definition to_players (st : state) (event : string) (data : payload) : list effect :=
  match firstPlayerSocket st with Some t => [Emit t event data] | None => [] end
  ++ match secondPlayerSocket st with Some t => [Emit t event data] | None => [] end.

(** The socket of the player who owns [symbol] in a game between [a] and [b]. *)
Definition player (a b : socket) (symbol : symbol) : socket :=
  match symbol with X => a | _ => b end.

(** The players submit [moves] in turn, [symbol] first. *)
Fixpoint play (a b : socket) (symbol : symbol) (moves : list number) (st : state)
    : result :=
  match moves with
  | [] => Ok st
  | input :: rest =>
      match handle (TurnTaken (player a b symbol) input) st with
      | Ok st' => play a b (opponent symbol) rest st'
      | Throw err st' => Throw err st'
      end
  end.

(** Every move of the sequence names an empty cell of the board it meets. *)
Fixpoint valid_moves (bd : list symbol) (symbol : symbol) (moves : list number) : Prop :=
  match moves with
  | [] => True
  | input :: rest =>
      exists i, in_bounds bd input /\ array_index (js_pred input) = Some i /\
                bd !! i = Some Dot /\
                valid_moves (<[i := symbol]> bd) (opponent symbol) rest
  end.


#[global] Instance incomplete_dec bd l : Decision (incomplete bd l).
Proof. unfold incomplete. apply _. Defined.


(** The tests of the [turn_taken] handler that lead to a rejection, with the
    prompt each sends. The last case is a position inside the bounds that is
    no array index: reading the board there finds nothing, which is not
    ['.'], and the handler answers as for an occupied cell. *)
Inductive rejection (bd : list symbol) (input : number) : string -> Prop :=
| unparseable :
    isNaN input = true -> rejection bd input msg_parse
| out_of_bounds :
    isNaN input = false ->
    js_neg (js_pred input) = true \/ js_ge (js_pred input) (length bd) = true ->
    rejection bd input msg_bounds
| occupied i :
    in_bounds bd input -> array_index (js_pred input) = Some i ->
    bd !! i <> Some Dot -> rejection bd input msg_occupied
| no_such_cell :
    in_bounds bd input -> array_index (js_pred input) = None ->
    rejection bd input msg_occupied.

(** The prompts of a rejection, one for each time the handler runs. *)
Fixpoint prompts (s : socket) (msg : string) (n : nat) : list effect :=
  match n with
  | 0%nat => []
  | S n' => Emit s "turn" (PStr msg) :: Next s :: prompts s msg n'
  end.

(** One run of one of the functions the server registers: the connection
    handler, or a handler set up for [socket] and [symbol]. *)
Inductive operation :=
| OnConnection (s : socket)
| OnDisconnect (s : socket) (sym : symbol)
| OnResign (s : socket) (sym : symbol)
| OnTurnTaken (s : socket) (sym : symbol) (input : number)
| OnTurnError (s : socket) (sym : symbol) (err : string).

Definition run_operation (op : operation) (st : state) : result :=
  match op with
  | OnConnection s => Ok (on_connection s st)
  | OnDisconnect s sym => on_disconnect s sym st
  | OnResign s sym => on_resign s sym st
  | OnTurnTaken s sym input => on_turn_taken s sym input st
  | OnTurnError s sym err => on_turn_error s sym err st
  end.


(** The server handling the events one after the other, until a handler
    throws. *)
Fixpoint run (events : list event) (st : state) : result :=
  match events with
  | [] => Ok st
  | e :: rest =>
      match handle e st with
      | Ok st' => run rest st'
      | Throw err st' => Throw err st'
      end
  end.

(** Cells that hold a mark in [bd] hold the same mark in [bd']: the boards
    differ only where [bd] is empty. *)
Definition marks_kept (bd bd' : list symbol) : Prop :=
  forall k c, bd !! k = Some c -> c <> Dot -> bd' !! k = Some c.

(** The events by which the player on socket [s] ends the game. *)
Inductive leaves (s : socket) : event -> Prop :=
| leaves_disconnect : leaves s (Disconnect s)
| leaves_resign : leaves s (Resign s)
| leaves_turn_error err : leaves s (TurnError s err).

(** The state in which the handlers of an event run: when a connection has
    ended, its socket is no longer connected. *)
Definition on_arrival (e : event) (st : state) : state :=
  match e with
  | Disconnect s => close s st
  | _ => st
  end.

(** The handler [setupSocket] registers for such an event. *)
Definition leave_handler (e : event) (s : socket) (sym : symbol) (st : state) : result :=
  match e with
  | Resign _ => on_resign s sym st
  | TurnError _ err => on_turn_error s sym err st
  | _ => on_disconnect s sym st
  end.

(** The [game_over] text when [loser] has left. *)
Definition leave_text (e : event) (winner loser : string) : string :=
  match e with
  | Resign _ => "won by " +:+ winner +:+ " player due to resignation"
  | _ => "won by " +:+ winner +:+ " player since " +:+ loser +:+ " player disconnected"
  end.

(** What goes out to the sockets: the trace without the server's own
    console. *)
Definition is_wire (e : effect) : bool :=
  match e with ConsoleError _ => false | _ => true end.

Definition wire (es : list effect) : list effect := List.filter is_wire es.

(** ** The clients and the server together *)

Section Clients.

(** [Number] on what a client sends as its position: JavaScript's own
    conversion, taken as given. *)
Variable Number : option string -> number.

(** The server together with the [isTurn] flag of the client on each
    socket. *)
Record system := mkSystem {
  server : state;
  isTurn : socket -> bool
}.

Definition set_flag (s : socket) (v : bool) (flags : socket -> bool) : socket -> bool :=
  fun t => if decide (t = s) then v else flags t.

(** The clients' handler of [turn] sets [isTurn]. *)
Fixpoint deliver (es : list effect) (flags : socket -> bool) : socket -> bool :=
  match es with
  | [] => flags
  | Emit to event _ :: rest =>
      deliver rest (if String.eqb event "turn" then set_flag to true flags else flags)
  | _ :: rest => deliver rest flags
  end.

(** The event the server sees for a message of the client on socket [s]. *)
Definition to_event (s : socket) (act : client_action) : option event :=
  match act with
  | SendResign => Some (Resign s)
  | SendTurnError err => Some (TurnError s err)
  | SendTurnTaken position => Some (TurnTaken s (Number position))
  | PrintError _ | CallNext => None
  end.

(** The server handles the messages among the client's actions. *)
Fixpoint receive (s : socket) (acts : list client_action) (st : state) : result :=
  match acts with
  | [] => Ok st
  | act :: rest =>
      match to_event s act with
      | None => receive s rest st
      | Some e =>
          match handle e st with
          | Ok st' => receive s rest st'
          | Throw err st' => Throw err st'
          end
      end
  end.

(** The player at the client on socket [s] enters a command: the loop body
    runs, the server handles what it sent, and the clients take note of
    the turns the server granted. The result has what the client did, the
    server's result and the flags. *)
Definition command (s : socket) (err : option string) (arg0 : option string)
    (sys : system) : list client_action * result * (socket -> bool) :=
  let (acts, flag) := on_command err arg0 (isTurn sys s) in
  let r := receive s acts (server sys) in
  (acts, r, deliver (response (server sys) (final r)) (set_flag s flag (isTurn sys))).

End Clients.

(** ** Further notions *)

(** The registry holds no player. *)
Definition registry_empty (st : state) : Prop :=
  firstPlayerSocket st = None /\ secondPlayerSocket st = None.

(** The socket an event comes from. *)
Definition sender (e : event) : socket :=
  match e with
  | Connection s | Disconnect s | Resign s | TurnTaken s _ | TurnError s _ => s
  end.

Definition is_connection (e : event) : bool :=
  match e with Connection _ => true | _ => false end.

(** The game on board [bd] is undecided: no line is complete and some cell
    is empty. *)
Definition undecided (bd : list symbol) : Prop :=
  Forall (incomplete bd) lines /\ Dot ∈ bd.

(** The number of empty cells. *)
Definition empty_cells (bd : list symbol) : nat :=
  length (List.filter is_dot bd).

(** [e] grants the turn to [t]. *)
Definition grants (t : socket) (e : effect) : Prop :=
  exists data, e = Emit t "turn" data.

(** [`${board[k]}`] in a template literal: the symbol, or ["undefined"] where
    the array has no element. *)
Definition show_cell (c : option symbol) : string :=
  match c with
  | Some Dot => "."
  | Some X => "x"
  | Some O => "o"
  | None => "undefined"
  end.

(** The client's handler of [board_update]: the lines it prints, a blank
    one and the three rows. *)
Definition on_board_update (board : list symbol) : list string :=
  [""; 
   show_cell (board !! 0%nat) +:+ " " +:+ show_cell (board !! 1%nat) +:+ " "
     +:+ show_cell (board !! 2%nat);
   show_cell (board !! 3%nat) +:+ " " +:+ show_cell (board !! 4%nat) +:+ " "
     +:+ show_cell (board !! 5%nat);
   show_cell (board !! 6%nat) +:+ " " +:+ show_cell (board !! 7%nat) +:+ " "
     +:+ show_cell (board !! 8%nat)].

(** ** What [cleanUp] does to the state and the trace *)

(** Socket [t] is in one of the two variables. *)
Definition seated (st : state) (t : socket) : Prop :=
  firstPlayerSocket st = Some t \/ secondPlayerSocket st = Some t.

(** The texts of the two ['disconnect'] listeners: the one registered with
    ['x'] and the one registered with ['o']. *)
Definition text_first_left : string :=
  "won by second player since first player disconnected".
Definition text_second_left : string :=
  "won by first player since second player disconnected".

(** The entries [cleanUp] adds to the trace: the calls of [disconnect] and
    the [game_over] of the ['disconnect'] listeners these calls run, all on
    sockets that were in the two variables. *)
Definition hang_up_entry (st : state) (e : effect) : Prop :=
  match e with
  | SockDisconnect t => seated st t
  | Emit t event data =>
      event = "game_over" /\
      (data = PStr text_first_left \/ data = PStr text_second_left) /\
      seated st t
  | _ => False
  end.

(** [st'] comes from [st] by hanging up: variables are cleared, connections
    end, and the trace grows by such entries. *)
Definition hangs_up (st st' : state) : Prop :=
  (firstPlayerSocket st' = None \/ firstPlayerSocket st' = firstPlayerSocket st) /\
  (secondPlayerSocket st' = None \/ secondPlayerSocket st' = secondPlayerSocket st) /\
  listeners st' = listeners st /\
  (forall s, s ∈ closed st -> s ∈ closed st') /\
  exists tr, sent st' = sent st ++ tr /\ Forall (hang_up_entry st) tr.

(** The number of the two variables that hold a connected socket. *)
Definition live_slot (o : option socket) (st : state) : nat :=
  match o with
  | Some s => if is_closed s st then 0 else 1
  | None => 0
  end.

Definition live (st : state) : nat :=
  (live_slot (firstPlayerSocket st) st + live_slot (secondPlayerSocket st) st)%nat.

(** The listeners [disconnect] runs inside [cleanUp_at]. *)
Definition listeners_at (depth : nat) (s : socket) (st : state) : state :=
  match depth with
  | 0%nat => st
  | S depth' => disconnect_listeners (cleanUp_at depth') s st
  end.

(** What [cleanUp] adds to the trace in a game between [a] and [b], both
    connected, with the handlers registered once
    ([cleanUp_both_connected]). *)
Definition hang_up_trace (a b : socket) : list effect :=
  [SockDisconnect a;
   Emit a "game_over" (PStr text_first_left);
   Emit b "game_over" (PStr text_first_left);
   SockDisconnect a; SockDisconnect b;
   Emit b "game_over" (PStr text_second_left);
   SockDisconnect b].

(** What goes out when the player of [sym] leaves such a game by [e]
    ([leaving_sets_off_further_game_over]). *)
Definition leave_wire (a b : socket) (sym : symbol) (e : event) : list effect :=
  let text := leave_text e (ordinal (opponent sym)) (ordinal sym) in
  [Emit a "game_over" (PStr text); Emit b "game_over" (PStr text)] ++
  match e, sym with
  | Disconnect _, X =>
      [SockDisconnect a; SockDisconnect b;
       Emit b "game_over" (PStr text_second_left); SockDisconnect b]
  | Disconnect _, _ =>
      [SockDisconnect a;
       Emit a "game_over" (PStr text_first_left);
       Emit b "game_over" (PStr text_first_left);
       SockDisconnect a; SockDisconnect b]
  | _, _ => hang_up_trace a b
  end.

(** * Properties *)

(** ** Lines and sums *)

Lemma line_sums_lines b : line_sums b = map (line_sum b) lines.
Proof.
  unfold line_sums, lines, row_sum, col_sum, diagonal1Sum, diagonal2Sum, line_sum.
  cbn [map fold_left Nat.mul Nat.add].
  destruct (b !! 0%nat) as [[]|], (b !! 2%nat) as [[]|]; reflexivity.
Qed.

Lemma line_length l : l ∈ lines -> exists i j k, l = [i; j; k].
Proof.
  unfold lines. intros H.
  repeat (apply elem_of_cons in H as [-> | H]; [eauto |]).
  by apply elem_of_nil in H.
Qed.

Lemma line_sum_3 b i j k :
  js_eq_num (line_sum b [i; j; k]) 3 = true <-> line_full b X [i; j; k].
Proof.
  unfold line_full, line_sum. cbn [fold_left].
  rewrite !Forall_cons, Forall_nil.
  destruct (b !! i) as [[]|], (b !! j) as [[]|], (b !! k) as [[]|];
    cbn; (split; [intros Hs; try discriminate Hs; auto
                 | intros (H1 & H2 & H3 & _); try discriminate; reflexivity]).
Qed.

Lemma line_sum_m3 b i j k :
  js_eq_num (line_sum b [i; j; k]) (-3) = true <-> line_full b O [i; j; k].
Proof.
  unfold line_full, line_sum. cbn [fold_left].
  rewrite !Forall_cons, Forall_nil.
  destruct (b !! i) as [[]|], (b !! j) as [[]|], (b !! k) as [[]|];
    cbn; (split; [intros Hs; try discriminate Hs; auto
                 | intros (H1 & H2 & H3 & _); try discriminate; reflexivity]).
Qed.

Lemma line_sum_first b l :
  l ∈ lines -> js_eq_num (line_sum b l) 3 = true <-> line_full b X l.
Proof. intros (i & j & k & ->)%line_length. apply line_sum_3. Qed.

Lemma line_sum_second b l :
  l ∈ lines -> js_eq_num (line_sum b l) (-3) = true <-> line_full b O l.
Proof. intros (i & j & k & ->)%line_length. apply line_sum_m3. Qed.

(** A line with an empty cell sums to [NaN]; a line without one sums to the
    signed count of the specification. *)
Lemma line_sum_empty_cell b l k :
  k ∈ l -> b !! k = Some Dot -> line_sum b l = JNaN.
Proof.
  unfold line_sum. intros Hk Hdot.
  assert (Hnan : forall l', fold_left (fun sum k => js_add sum (symbolToScore (b !! k))) l' JNaN = JNaN).
  { induction l' as [|x l' IH]; [done | apply IH]. }
  generalize (JNum 0). induction l as [|x l IH]; intros acc.
  - by apply elem_of_nil in Hk.
  - apply elem_of_cons in Hk as [<- | Hk]; cbn [fold_left].
    + rewrite Hdot. destruct acc; apply Hnan.
    + by apply IH.
Qed.

Lemma line_sum_marked b l :
  Forall (fun k => b !! k = Some X \/ b !! k = Some O) l ->
  line_sum b l = JNum (line_sum_spec b l).
Proof.
  unfold line_sum, line_sum_spec. generalize 0%Z.
  induction l as [|x l IH]; intros acc Hl; [done |].
  apply Forall_cons in Hl as [Hx Hl]. cbn [fold_left].
  destruct Hx as [-> | ->]; cbn; apply IH, Hl.
Qed.

(** ** The state after the helper functions *)

Lemma emitToAll_fields event data st :
  firstPlayerSocket (emitToAll event data st) = firstPlayerSocket st /\
  secondPlayerSocket (emitToAll event data st) = secondPlayerSocket st /\
  board (emitToAll event data st) = board st /\
  listeners (emitToAll event data st) = listeners st.
Proof.
  unfold emitToAll.
  destruct (firstPlayerSocket st) eqn:E1, (secondPlayerSocket st) eqn:E2;
    cbn; rewrite ?E1, ?E2; cbn; auto.
Qed.

Lemma emitToAll_sent event data st :
  sent (emitToAll event data st) =
  sent st ++ match firstPlayerSocket st with
             | Some s => [Emit s event data]
             | None => []
             end
          ++ match secondPlayerSocket st with
             | Some s => [Emit s event data]
             | None => []
             end.
Proof.
  unfold emitToAll.
  destruct (firstPlayerSocket st) eqn:E1, (secondPlayerSocket st) eqn:E2;
    cbn; rewrite ?E1, ?E2; cbn; rewrite <- ?app_assoc, ?app_nil_r; reflexivity.
Qed.

(** ** Hanging up *)

Lemma hangs_up_seated st st' t : hangs_up st st' -> seated st' t -> seated st t.
Proof.
  intros (H1 & H2 & _) [H | H]; unfold seated.
  - destruct H1 as [H1 | H1]; [congruence | left; congruence].
  - destruct H2 as [H2 | H2]; [congruence | right; congruence].
Qed.

Lemma hang_up_entry_mono st st' e :
  (forall t, seated st' t -> seated st t) -> hang_up_entry st' e -> hang_up_entry st e.
Proof.
  intros Hs. destruct e as [t ev data | t | |]; cbn; try tauto.
  - intros (-> & Hdata & H). auto.
  - auto.
Qed.

Lemma hangs_up_refl st : hangs_up st st.
Proof.
  unfold hangs_up. repeat split; auto. exists []. by rewrite app_nil_r.
Qed.

Lemma hangs_up_trans st1 st2 st3 : hangs_up st1 st2 -> hangs_up st2 st3 -> hangs_up st1 st3.
Proof.
  intros H12 H23. pose proof (fun t => hangs_up_seated _ _ t H12) as Hs.
  destruct H12 as (A1 & A2 & A3 & A4 & tr1 & A5 & A6).
  destruct H23 as (B1 & B2 & B3 & B4 & tr2 & B5 & B6).
  unfold hangs_up. split; [| split; [| split; [| split]]].
  - destruct B1 as [-> | ->]; auto.
  - destruct B2 as [-> | ->]; auto.
  - congruence.
  - auto.
  - exists (tr1 ++ tr2). rewrite B5, A5, app_assoc. split; [done |].
    apply Forall_app. split; [done |].
    eapply Forall_impl; [exact B6 |]. intros e. by apply hang_up_entry_mono.
Qed.

Lemma hangs_up_log st e : hang_up_entry st e -> hangs_up st (log e st).
Proof.
  intros He. unfold hangs_up. cbn. repeat split; auto.
  exists [e]. split; [done |]. by constructor.
Qed.

Lemma hangs_up_close st s : hangs_up st (close s st).
Proof.
  unfold hangs_up. cbn. repeat split; auto.
  - intros t Ht. by apply elem_of_cons; right.
  - exists []. by rewrite app_nil_r.
Qed.

Lemma hangs_up_set_first st : hangs_up st (set_first None st).
Proof.
  unfold hangs_up. cbn. repeat split; auto. exists []. by rewrite app_nil_r.
Qed.

Lemma hangs_up_set_second st : hangs_up st (set_second None st).
Proof.
  unfold hangs_up. cbn. repeat split; auto. exists []. by rewrite app_nil_r.
Qed.

Lemma hangs_up_set_board st bd : hangs_up st (set_board bd st).
Proof.
  unfold hangs_up. cbn. repeat split; auto. exists []. by rewrite app_nil_r.
Qed.

Lemma emitToAll_closed event data st : closed (emitToAll event data st) = closed st.
Proof.
  unfold emitToAll.
  destruct (firstPlayerSocket st) eqn:E1, (secondPlayerSocket st) eqn:E2;
    cbn; rewrite ?E1, ?E2; cbn; auto.
Qed.

Lemma text_of_listener sym :
  "won by " +:+ otherPlayerOrdinal sym +:+ " player since "
    +:+ (if String.eqb (otherPlayerOrdinal sym) "first" then "second" else "first")
    +:+ " player disconnected"
  = match sym with X => text_first_left | _ => text_second_left end.
Proof. by destruct sym. Qed.

Lemma hangs_up_game_over st text :
  text = text_first_left \/ text = text_second_left ->
  hangs_up st (emitToAll "game_over" (PStr text) st).
Proof.
  intros Htext.
  destruct (emitToAll_fields "game_over" (PStr text) st) as (E1 & E2 & _ & E4).
  unfold hangs_up. rewrite E1, E2, E4, emitToAll_closed, emitToAll_sent.
  repeat split; auto. eexists. split; [reflexivity |].
  assert (Hdata : PStr text = PStr text_first_left \/ PStr text = PStr text_second_left)
    by (destruct Htext as [-> | ->]; auto).
  apply Forall_app.
  split; [destruct (firstPlayerSocket st) eqn:E | destruct (secondPlayerSocket st) eqn:E];
    try apply Forall_nil_2;
    (apply Forall_cons; split; [cbn; unfold seated; auto | apply Forall_nil_2]).
Qed.

Lemma announce_with_hangs_up cu sym st :
  (forall st, hangs_up st (cu st)) ->
  hangs_up st (announceWinnerByDisconnection_with cu (otherPlayerOrdinal sym) st).
Proof.
  intros Hcu. unfold announceWinnerByDisconnection_with. rewrite text_of_listener.
  eapply hangs_up_trans; [| apply Hcu]. apply hangs_up_game_over.
  destruct sym; auto.
Qed.

Lemma disconnect_listeners_hangs_up cu s st :
  (forall st, hangs_up st (cu st)) -> hangs_up st (disconnect_listeners cu s st).
Proof.
  intros Hcu. unfold disconnect_listeners.
  generalize (registered s (listeners st)). intros syms. revert st.
  induction syms as [|sym syms IH]; intros st; cbn [fold_left].
  - apply hangs_up_refl.
  - eapply hangs_up_trans; [| apply IH]. by apply announce_with_hangs_up.
Qed.

Lemma disconnect_hangs_up run_listeners s st :
  (forall s st, hangs_up st (run_listeners s st)) -> seated st s ->
  hangs_up st (disconnect run_listeners s st).
Proof.
  intros Hrun Hs. unfold disconnect.
  eapply hangs_up_trans; [apply (hangs_up_log st (SockDisconnect s)), Hs |].
  destruct (is_closed s _); [apply hangs_up_refl |].
  eapply hangs_up_trans; [apply hangs_up_close | apply Hrun].
Qed.

Lemma cleanUp_with_hangs_up disconnect st :
  (forall s st, seated st s -> hangs_up st (disconnect s st)) ->
  hangs_up st (cleanUp_with disconnect st) /\
  firstPlayerSocket (cleanUp_with disconnect st) = None /\
  secondPlayerSocket (cleanUp_with disconnect st) = None /\
  board (cleanUp_with disconnect st) = empty_board.
Proof.
  intros Hd. unfold cleanUp_with.
  set (st1 := match firstPlayerSocket st with
              | Some s => set_first None (disconnect s st)
              | None => st
              end).
  assert (H1 : hangs_up st st1 /\ firstPlayerSocket st1 = None).
  { subst st1. destruct (firstPlayerSocket st) as [s|] eqn:E.
    - split; [| done].
      eapply hangs_up_trans; [apply Hd; by left | apply hangs_up_set_first].
    - split; [apply hangs_up_refl | done]. }
  destruct H1 as [H1 F1].
  set (st2 := match secondPlayerSocket st1 with
              | Some s => set_second None (disconnect s st1)
              | None => st1
              end).
  assert (H2 : hangs_up st1 st2 /\ secondPlayerSocket st2 = None).
  { subst st2. destruct (secondPlayerSocket st1) as [s|] eqn:E.
    - split; [| done].
      eapply hangs_up_trans; [apply Hd; by right | apply hangs_up_set_second].
    - split; [apply hangs_up_refl | done]. }
  destruct H2 as [H2 F2].
  assert (F1' : firstPlayerSocket st2 = None).
  { destruct H2 as ([H | H] & _); [done | congruence]. }
  split; [| by cbn].
  eapply hangs_up_trans; [exact H1 |].
  eapply hangs_up_trans; [exact H2 | apply hangs_up_set_board].
Qed.

Lemma cleanUp_at_eq depth st :
  cleanUp_at depth st = cleanUp_with (disconnect (listeners_at depth)) st.
Proof. by destruct depth. Qed.

Lemma cleanUp_at_hangs_up depth st : hangs_up st (cleanUp_at depth st).
Proof.
  revert st. induction depth as [|depth IH]; intros st; rewrite cleanUp_at_eq;
    apply cleanUp_with_hangs_up; intros s st' Hs; apply disconnect_hangs_up; try done;
    intros s' st''; cbn.
  - apply hangs_up_refl.
  - by apply disconnect_listeners_hangs_up.
Qed.

Lemma cleanUp_at_fields depth st :
  firstPlayerSocket (cleanUp_at depth st) = None /\
  secondPlayerSocket (cleanUp_at depth st) = None /\
  board (cleanUp_at depth st) = empty_board /\
  listeners (cleanUp_at depth st) = listeners st.
Proof.
  pose proof (cleanUp_at_hangs_up depth st) as (_ & _ & Hl & _).
  rewrite cleanUp_at_eq in *.
  destruct (cleanUp_with_hangs_up (disconnect (listeners_at depth)) st) as (_ & H1 & H2 & H3).
  - intros s st' Hs. apply disconnect_hangs_up; [| done].
    intros s' st''. destruct depth; cbn; [apply hangs_up_refl |].
    apply disconnect_listeners_hangs_up. apply cleanUp_at_hangs_up.
  - auto.
Qed.

(** ** The depth of nesting *)

Lemma live_slot_le o o' st st' :
  (o' = None \/ o' = o) -> (forall s, s ∈ closed st -> s ∈ closed st') ->
  (live_slot o' st' <= live_slot o st)%nat.
Proof.
  intros [-> | ->] Hc; cbn; [lia |].
  destruct o as [s|]; cbn; [| lia]. unfold is_closed.
  destruct (bool_decide (s ∈ closed st)) eqn:E.
  - apply bool_decide_eq_true in E. by rewrite bool_decide_eq_true_2; auto.
  - destruct (bool_decide (s ∈ closed st')); lia.
Qed.

Lemma hangs_up_live st st' : hangs_up st st' -> (live st' <= live st)%nat.
Proof.
  intros (H1 & H2 & _ & Hc & _). unfold live.
  pose proof (live_slot_le _ _ st st' H1 Hc). pose proof (live_slot_le _ _ st st' H2 Hc).
  lia.
Qed.

Lemma live_emitToAll event data st : live (emitToAll event data st) = live st.
Proof.
  destruct (emitToAll_fields event data st) as (E1 & E2 & _).
  unfold live, live_slot, is_closed. by rewrite E1, E2, emitToAll_closed.
Qed.

Lemma live_close st s e :
  seated st s -> is_closed s st = false -> (live (close s (log e st)) < live st)%nat.
Proof.
  intros Hs Ho.
  assert (Hle : forall o, (live_slot o (close s (log e st)) <= live_slot o st)%nat).
  { intros o. apply live_slot_le; [by right |]. cbn. intros t Ht. by apply elem_of_cons; right. }
  assert (Hlt : (live_slot (Some s) (close s (log e st)) < live_slot (Some s) st)%nat).
  { cbn. rewrite Ho. unfold is_closed. cbn.
    rewrite bool_decide_eq_true_2; [lia | by apply elem_of_cons; left]. }
  unfold live. cbn [firstPlayerSocket secondPlayerSocket close log].
  pose proof (Hle (firstPlayerSocket st)). pose proof (Hle (secondPlayerSocket st)).
  destruct Hs as [E | E]; rewrite E in *; lia.
Qed.

Lemma disconnect_listeners_ext cu1 cu2 j s st :
  (forall st, (live st <= j)%nat -> cu1 st = cu2 st) ->
  (forall st, hangs_up st (cu1 st)) ->
  (live st <= j)%nat ->
  disconnect_listeners cu1 s st = disconnect_listeners cu2 s st.
Proof.
  intros Heq Hh. unfold disconnect_listeners.
  generalize (registered s (listeners st)). intros syms. revert st.
  induction syms as [|sym syms IH]; intros st Hl; cbn [fold_left]; [done |].
  assert (E : announceWinnerByDisconnection_with cu1 (otherPlayerOrdinal sym) st =
              announceWinnerByDisconnection_with cu2 (otherPlayerOrdinal sym) st).
  { unfold announceWinnerByDisconnection_with. apply Heq. by rewrite live_emitToAll. }
  rewrite <- E. apply IH.
  pose proof (hangs_up_live _ _ (announce_with_hangs_up cu1 sym st Hh)).
  lia.
Qed.

Lemma cleanUp_with_ext d1 d2 st :
  (forall s st', hangs_up st st' -> seated st' s -> d1 s st' = d2 s st') ->
  (forall s st', seated st' s -> hangs_up st' (d1 s st')) ->
  cleanUp_with d1 st = cleanUp_with d2 st.
Proof.
  intros Heq Hh. unfold cleanUp_with.
  set (st1 := match firstPlayerSocket st with
              | Some s => set_first None (d1 s st)
              | None => st
              end).
  assert (E1 : match firstPlayerSocket st with
               | Some s => set_first None (d2 s st)
               | None => st
               end = st1).
  { subst st1. destruct (firstPlayerSocket st) as [s|] eqn:E; [| done].
    rewrite Heq; [done | apply hangs_up_refl | by left]. }
  rewrite E1.
  assert (H1 : hangs_up st st1).
  { subst st1. destruct (firstPlayerSocket st) as [s|] eqn:E; [| apply hangs_up_refl].
    eapply hangs_up_trans; [apply Hh; by left | apply hangs_up_set_first]. }
  destruct (secondPlayerSocket st1) as [s|] eqn:E; [| done].
  rewrite Heq; [done | done | by right].
Qed.

Lemma cleanUp_at_stable k : forall st n m,
  (live st <= k)%nat -> (k <= n)%nat -> (k <= m)%nat -> cleanUp_at n st = cleanUp_at m st.
Proof.
  induction k as [|k IH]; intros st n m Hl Hn Hm; rewrite !cleanUp_at_eq.
  - apply cleanUp_with_ext.
    + intros s st' Hh Hs. unfold disconnect.
      destruct (is_closed s (log (SockDisconnect s) st')) eqn:E; [done |].
      pose proof (hangs_up_live _ _ Hh).
      pose proof (live_close st' s (SockDisconnect s) Hs E). lia.
    + intros s st' Hs. apply disconnect_hangs_up; [| done].
      intros s' st''. destruct n; cbn; [apply hangs_up_refl |].
      apply disconnect_listeners_hangs_up, cleanUp_at_hangs_up.
  - apply cleanUp_with_ext.
    + intros s st' Hh Hs. unfold disconnect.
      destruct (is_closed s (log (SockDisconnect s) st')) eqn:E; [done |].
      pose proof (hangs_up_live _ _ Hh).
      pose proof (live_close st' s (SockDisconnect s) Hs E).
      destruct n as [|n]; [lia |]. destruct m as [|m]; [lia |]. cbn [listeners_at].
      apply (disconnect_listeners_ext _ _ k).
      * intros st0 Hst0. apply IH; lia.
      * apply cleanUp_at_hangs_up.
      * lia.
    + intros s st' Hs. apply disconnect_hangs_up; [| done].
      intros s' st''. destruct n; cbn; [apply hangs_up_refl |].
      apply disconnect_listeners_hangs_up, cleanUp_at_hangs_up.
Qed.

Lemma live_le_2 st : (live st <= 2)%nat.
Proof.
  unfold live, live_slot.
  destruct (firstPlayerSocket st) as [a|], (secondPlayerSocket st) as [b|];
    repeat match goal with |- context [is_closed ?s ?st] => destruct (is_closed s st) end; lia.
Qed.

(** Depth [2] is enough: a greater depth gives the same result. *)
Lemma cleanUp_at_enough depth st : cleanUp_at (2 + depth) st = cleanUp st.
Proof. apply (cleanUp_at_stable 2); [apply live_le_2 | lia | lia]. Qed.

(** ** [cleanUp] and the announcements *)

Lemma cleanUp_hangs_up st : hangs_up st (cleanUp st).
Proof. apply cleanUp_at_hangs_up. Qed.

Lemma cleanUp_fields st :
  firstPlayerSocket (cleanUp st) = None /\
  secondPlayerSocket (cleanUp st) = None /\
  board (cleanUp st) = empty_board /\
  listeners (cleanUp st) = listeners st.
Proof. apply cleanUp_at_fields. Qed.

Lemma cleanUp_sent st :
  exists tr, sent (cleanUp st) = sent st ++ tr /\ Forall (hang_up_entry st) tr.
Proof. by destruct (cleanUp_hangs_up st) as (_ & _ & _ & _ & H). Qed.

(** With no socket in the variables, [cleanUp] only resets the board. *)
Lemma cleanUp_empty st :
  firstPlayerSocket st = None -> secondPlayerSocket st = None ->
  cleanUp st = set_board empty_board st.
Proof.
  intros H1 H2. unfold cleanUp. rewrite cleanUp_at_eq. unfold cleanUp_with.
  by rewrite H1, H2.
Qed.

Lemma announce_fields text st :
  firstPlayerSocket (announce text st) = None /\
  secondPlayerSocket (announce text st) = None /\
  board (announce text st) = empty_board /\
  listeners (announce text st) = listeners st.
Proof.
  unfold announce.
  destruct (cleanUp_fields (emitToAll "game_over" (PStr text) st)) as (-> & -> & -> & ->).
  destruct (emitToAll_fields "game_over" (PStr text) st) as (_ & _ & _ & ->). auto.
Qed.

Lemma seated_emitToAll event data st t : seated (emitToAll event data st) t <-> seated st t.
Proof.
  destruct (emitToAll_fields event data st) as (E1 & E2 & _).
  unfold seated. by rewrite E1, E2.
Qed.

(** An announcement sends [game_over] to the players; what follows in the
    trace is hanging up. *)
Lemma announce_sent text st :
  exists tr,
    sent (announce text st) = sent st ++ to_players st "game_over" (PStr text) ++ tr /\
    Forall (hang_up_entry st) tr.
Proof.
  unfold announce.
  destruct (cleanUp_sent (emitToAll "game_over" (PStr text) st)) as (tr & E & Htr).
  exists tr. split.
  - rewrite E, emitToAll_sent. unfold to_players. by rewrite <- !app_assoc.
  - eapply Forall_impl; [exact Htr |]. intros e. apply hang_up_entry_mono.
    intros t. apply seated_emitToAll.
Qed.

(** ** What [checkForGameOver] computes *)

Lemma checkForGameOver_eq st :
  checkForGameOver st =
  match first_decisive (line_sums (board st)) with
  | Some who => (true, announceWinner who st)
  | None =>
      if existsb is_dot (board st) then (false, st) else (true, announceTie st)
  end.
Proof.
  unfold checkForGameOver, line_sums, check_lines, determineWinnerFromSum.
  cbn [first_decisive].
  repeat match goal with
         | |- context [js_eq_num ?s ?n] =>
             destruct (js_eq_num s n); [reflexivity |]; cbv beta iota zeta
         end.
  reflexivity.
Qed.
(** ** Positions *)

Lemma js_neg_finite q : js_neg (Finite q) = true <-> (q < 0)%Q.
Proof.
  cbn. rewrite negb_true_iff, <- not_true_iff_false, Qle_bool_iff. split.
  - apply Qnot_le_lt.
  - apply Qlt_not_le.
Qed.

Lemma js_ge_finite q len : js_ge (Finite q) len = true <-> (inject_Z (Z.of_nat len) <= q)%Q.
Proof. cbn. apply Qle_bool_iff. Qed.

Lemma Qred_inject_Z z : Qred (inject_Z z) = inject_Z z.
Proof. apply Qcanon.Qred_identity. cbn. apply Z.gcd_1_r. Qed.

Lemma array_index_finite q i :
  array_index (Finite q) = Some i <-> (q == inject_Z (Z.of_nat i))%Q.
Proof.
  unfold array_index. cbv zeta. split.
  - destruct (Qred q) as [num den] eqn:Hred. cbn [Qnum Qden].
    destruct (Pos.eqb_spec den 1) as [-> |]; [| done].
    destruct (Z.leb_spec 0 num); [| done]. cbn [andb]. intros [= <-].
    rewrite Z2Nat.id by done. rewrite <- (Qred_correct q), Hred. reflexivity.
  - intros Hq. apply Qred_complete in Hq. rewrite Hq, Qred_inject_Z.
    cbn [Qnum Qden inject_Z Pos.eqb andb].
    destruct (Z.leb_spec 0 (Z.of_nat i)); [| lia]. by rewrite Nat2Z.id.
Qed.

Lemma inject_Z_pred n : (inject_Z n - 1 == inject_Z (n - 1))%Q.
Proof. unfold Z.sub. rewrite inject_Z_plus, inject_Z_opp. reflexivity. Qed.

Lemma array_index_typed n :
  (1 <= n)%Z -> array_index (js_pred (typed n)) = Some (Z.to_nat (n - 1)).
Proof.
  intros Hn. apply array_index_finite. rewrite Z2Nat.id by lia.
  apply inject_Z_pred.
Qed.

Lemma js_neg_typed n : js_neg (js_pred (typed n)) = true <-> (n - 1 < 0)%Z.
Proof.
  unfold typed, js_pred. rewrite js_neg_finite, inject_Z_pred.
  change 0%Q with (inject_Z 0). by rewrite <- Zlt_Qlt.
Qed.

Lemma js_ge_typed n len :
  js_ge (js_pred (typed n)) len = true <-> (Z.of_nat len <= n - 1)%Z.
Proof.
  unfold typed, js_pred. rewrite js_ge_finite, inject_Z_pred.
  by rewrite <- Zle_Qle.
Qed.

(** ** Dispatching an event *)

Lemma dispatch_registered ls handler s st :
  dispatch ls handler s st = run_handlers (handler s) (registered s ls) st.
Proof.
  revert st. induction ls as [|[s' symbol] ls IH]; intros st; [done |].
  unfold registered. cbn [dispatch omap list_omap fst snd].
  destruct (decide (s' = s)) as [-> |]; cbn [run_handlers].
  - destruct (handler s symbol st); [apply IH | done].
  - apply IH.
Qed.

Lemma run_handlers_one handler symbol st :
  run_handlers handler [symbol] st = handler symbol st.
Proof. cbn. by destruct (handler symbol st). Qed.

(** ** The [turn_taken] handler, case by case *)

Lemma isNaN_pred input : isNaN (js_pred input) = isNaN input.
Proof. by destruct input. Qed.

Lemma on_turn_taken_unparseable s symbol input st :
  isNaN input = true ->
  on_turn_taken s symbol input st = Ok (rejected s msg_parse st).
Proof. intros H. unfold on_turn_taken. by rewrite isNaN_pred, H. Qed.

Lemma on_turn_taken_out_of_bounds s symbol input st :
  isNaN input = false ->
  js_neg (js_pred input) = true \/ js_ge (js_pred input) (length (board st)) = true ->
  on_turn_taken s symbol input st = Ok (rejected s msg_bounds st).
Proof.
  intros H Hb. unfold on_turn_taken. rewrite isNaN_pred, H.
  apply orb_true_iff in Hb. by rewrite Hb.
Qed.

Lemma on_turn_taken_no_element s symbol input st :
  in_bounds (board st) input ->
  array_index (js_pred input) = None ->
  on_turn_taken s symbol input st = Ok (rejected s msg_occupied st).
Proof.
  intros (H1 & H2 & H3) Hi. unfold on_turn_taken. by rewrite H1, H2, H3, Hi.
Qed.

Lemma on_turn_taken_occupied s symbol input i st :
  in_bounds (board st) input ->
  array_index (js_pred input) = Some i ->
  board st !! i <> Some Dot ->
  on_turn_taken s symbol input st = Ok (rejected s msg_occupied st).
Proof.
  intros (H1 & H2 & H3) Hi Hc. unfold on_turn_taken. rewrite H1, H2, H3, Hi.
  cbn [orb]. by destruct (decide (board st !! i = Some Dot)).
Qed.

Lemma on_turn_taken_accepted s symbol input i st :
  in_bounds (board st) input ->
  array_index (js_pred input) = Some i ->
  board st !! i = Some Dot ->
  on_turn_taken s symbol input st = accept_move s symbol i st.
Proof.
  intros (H1 & H2 & H3) Hi Hc. unfold on_turn_taken. rewrite H1, H2, H3, Hi.
  cbn [orb]. by destruct (decide (board st !! i = Some Dot)).
Qed.

(** A typed cell number from 1 to the length of the board is in bounds. *)
Lemma in_bounds_typed b n :
  (1 <= n <= Z.of_nat (length b))%Z -> in_bounds b (typed n).
Proof.
  intros Hn. repeat split.
  - apply not_true_iff_false. rewrite js_neg_typed. lia.
  - apply not_true_iff_false. rewrite js_ge_typed. lia.
Qed.

Lemma written_fields symbol i st :
  firstPlayerSocket (written symbol i st) = firstPlayerSocket st /\
  secondPlayerSocket (written symbol i st) = secondPlayerSocket st /\
  board (written symbol i st) = <[i := symbol]> (board st) /\
  listeners (written symbol i st) = listeners st.
Proof.
  unfold written.
  destruct (emitToAll_fields "board_update" (PBoard (<[i := symbol]> (board st)))
              (set_board (<[i := symbol]> (board st)) st)) as (-> & -> & -> & ->).
  auto.
Qed.

Lemma written_sent symbol i st :
  sent (written symbol i st) =
  sent st ++ match firstPlayerSocket st with
             | Some s => [Emit s "board_update" (PBoard (<[i := symbol]> (board st)))]
             | None => []
             end
          ++ match secondPlayerSocket st with
             | Some s => [Emit s "board_update" (PBoard (<[i := symbol]> (board st)))]
             | None => []
             end.
Proof. unfold written. by rewrite emitToAll_sent. Qed.

Lemma accept_move_eq s symbol i st :
  accept_move s symbol i st =
  let st1 := written symbol i st in
  match first_decisive (line_sums (<[i := symbol]> (board st))) with
  | Some who => Ok (log (Next s) (announceWinner who st1))
  | None =>
      if existsb is_dot (<[i := symbol]> (board st)) then
        match next_player symbol st with
        | Some t => Ok (log (Next s) (emit t "turn" PNull st1))
        | None => Throw "TypeError" st1
        end
      else Ok (log (Next s) (announceTie st1))
  end.
Proof.
  unfold accept_move. cbv zeta. fold (written symbol i st).
  change (board (set_board (<[i := symbol]> (board st)) st))
    with (<[i := symbol]> (board st)).
  fold (written symbol i st).
  rewrite checkForGameOver_eq.
  destruct (written_fields symbol i st) as (E1 & E2 & -> & _).
  destruct (first_decisive _); [done |].
  destruct (existsb _ _); [| done].
  unfold next_player. rewrite <- E1, <- E2. by destruct symbol.
Qed.

(** ** Scores and sums (C3) *)

(** On the two tests [determineWinnerFromSum] makes, the sum the code
    computes and the signed count of the specification agree. *)
Lemma line_decision_spec b l n :
  l ∈ lines -> n = 3%Z \/ n = (-3)%Z ->
  js_eq_num (line_sum b l) n = Z.eqb (line_sum_spec b l) n.
Proof.
  intros (i & j & k & ->)%line_length Hn.
  unfold line_sum, line_sum_spec. cbn [fold_left].
  destruct (b !! i) as [[]|], (b !! j) as [[]|], (b !! k) as [[]|];
    destruct Hn as [-> | ->]; reflexivity.
Qed.

Lemma first_decisive_map_spec b ls :
  Forall (fun l => l ∈ lines) ls ->
  first_decisive (map (line_sum b) ls) =
  first_decisive (map (fun l => JNum (line_sum_spec b l)) ls).
Proof.
  induction 1 as [|l ls Hl _ IH]; [done |].
  cbn [map first_decisive js_eq_num].
  rewrite !line_decision_spec by auto. by rewrite IH.
Qed.

Lemma first_decisive_spec b :
  first_decisive (line_sums b) =
  first_decisive (map (fun l => JNum (line_sum_spec b l)) lines).
Proof.
  rewrite line_sums_lines. apply first_decisive_map_spec.
  by apply Forall_forall.
Qed.

(** C3, evaluated on a board with empty cells: an empty cell has no score
    ([symbolToScore] returns [undefined] for it, not [0]), so the sum of
    the row [x x .], and of every other line here, is [NaN], where the
    signed count of the row is [2]. *)
Theorem C3_empty_cell_has_no_score :
  symbolToScore (Some Dot) = JUndefined /\
  line_sums [X; X; Dot; Dot; Dot; Dot; Dot; Dot; Dot]
    = [JNaN; JNaN; JNaN; JNaN; JNaN; JNaN; JNaN; JNaN] /\
  line_sum_spec [X; X; Dot; Dot; Dot; Dot; Dot; Dot; Dot] [0; 1; 2]%nat = 2%Z.
Proof. repeat split. Qed.

(** ** Complete lines *)

Lemma first_decisive_lines b ls :
  Forall (fun l => l ∈ lines) ls ->
  match first_decisive (map (line_sum b) ls) with
  | Some who =>
      exists pre l post m,
        ls = pre ++ l :: post /\ Forall (incomplete b) pre /\
        m <> Dot /\ line_full b m l /\ who = ordinal m
  | None => Forall (incomplete b) ls
  end.
Proof.
  induction 1 as [|l ls Hl _ IH]; [by constructor |].
  cbn [map first_decisive].
  destruct (js_eq_num (line_sum b l) 3) eqn:H3.
  { apply line_sum_first in H3; [| done].
    exists [], l, ls, X. by repeat split. }
  destruct (js_eq_num (line_sum b l) (-3)) eqn:Hm3.
  { apply line_sum_second in Hm3; [| done].
    exists [], l, ls, O. by repeat split. }
  assert (Hinc : incomplete b l).
  { split; intros Hf.
    - apply line_sum_first in Hf; [congruence | done].
    - apply line_sum_second in Hf; [congruence | done]. }
  destruct (first_decisive (map (line_sum b) ls)).
  - destruct IH as (pre & l' & post & m & -> & Hpre & Hm & Hfull & ->).
    exists (l :: pre), l', post, m. repeat split; auto.
  - by constructor.
Qed.

(** A move onto a board without a complete line can only complete lines of
    its own mark, through the cell it takes, so the winner declared is the
    player who moved. *)
Lemma complete_line_is_the_movers bd i sym l m :
  Forall (incomplete bd) lines -> bd !! i = Some Dot ->
  l ∈ lines -> m <> Dot -> line_full (<[i := sym]> bd) m l ->
  m = sym /\ i ∈ l.
Proof.
  intros Hinc Hdot Hl Hm Hfull.
  destruct (decide (i ∈ l)) as [Hi | Hi].
  - split; [| done]. unfold line_full in Hfull. rewrite Forall_forall in Hfull.
    specialize (Hfull i Hi). apply lookup_lt_Some in Hdot.
    rewrite list_lookup_insert_eq in Hfull by done. congruence.
  - exfalso. rewrite Forall_forall in Hinc. destruct (Hinc l Hl) as [HX HO].
    assert (Hold : line_full bd m l).
    { unfold line_full in *. rewrite Forall_forall in *. intros k Hk.
      rewrite <- (Hfull k Hk). symmetry. apply list_lookup_insert_ne.
      intros ->. done. }
    destruct m; done.
Qed.

Lemma first_decisive_mover bd i sym l m :
  Forall (incomplete bd) lines -> bd !! i = Some Dot ->
  l ∈ lines -> m <> Dot -> line_full (<[i := sym]> bd) m l ->
  first_decisive (line_sums (<[i := sym]> bd)) = Some (ordinal sym).
Proof.
  intros Hinc Hdot Hl Hm Hfull. rewrite line_sums_lines.
  assert (Hlines : Forall (fun l => l ∈ lines) lines) by (by apply Forall_forall).
  pose proof (first_decisive_lines (<[i := sym]> bd) lines Hlines) as Hfirst.
  destruct (first_decisive _) as [who|].
  - destruct Hfirst as (pre & l' & post & m' & Hsplit & _ & Hm' & Hfull' & ->).
    assert (Hl' : l' ∈ lines).
    { rewrite Hsplit. apply elem_of_app. right. apply list_elem_of_here. }
    by destruct (complete_line_is_the_movers _ _ _ _ _ Hinc Hdot Hl' Hm' Hfull') as [-> _].
  - exfalso. rewrite Forall_forall in Hfirst. destruct (Hfirst l Hl) as [HX HO].
    destruct m; done.
Qed.


(** ** Order of the notifications of a move that ends the game (C10) *)

Lemma response_app st st' es : sent st' = sent st ++ es -> response st st' = es.
Proof. unfold response. intros ->. by rewrite drop_app_length. Qed.

Lemma log_sent e st : sent (log e st) = sent st ++ [e].
Proof. reflexivity. Qed.

Lemma announceWinner_announce who st :
  announceWinner who st = announce ("won by " +:+ who +:+ " player") st.
Proof. reflexivity. Qed.

Lemma announceTie_announce st : announceTie st = announce "is tied" st.
Proof. reflexivity. Qed.

Lemma checkForGameOver_over st :
  fst (checkForGameOver st) = game_over_on (board st).
Proof.
  rewrite checkForGameOver_eq. unfold game_over_on.
  destruct (first_decisive _); [done |]. by destruct (existsb _ _).
Qed.

Lemma accept_move_over s symbol i st :
  game_over_on (<[i := symbol]> (board st)) = true ->
  accept_move s symbol i st =
  Ok (log (Next s) (announce (outcome_text (<[i := symbol]> (board st)))
                             (written symbol i st))).
Proof.
  intros Hover. rewrite accept_move_eq. cbv zeta.
  unfold game_over_on, outcome_text in *.
  destruct (first_decisive _); [done |].
  apply negb_true_iff in Hover. by rewrite Hover.
Qed.

Lemma seated_written symbol i st t : seated (written symbol i st) t <-> seated st t.
Proof.
  destruct (written_fields symbol i st) as (E1 & E2 & _).
  unfold seated. by rewrite E1, E2.
Qed.

Lemma to_players_written symbol i st event data :
  to_players (written symbol i st) event data = to_players st event data.
Proof.
  destruct (written_fields symbol i st) as (E1 & E2 & _).
  unfold to_players. by rewrite E1, E2.
Qed.

(** The trace of an accepted move that ends the game: the board and
    [game_over] to the players, then what hanging up adds, then the
    acknowledgement. *)
Lemma accept_move_over_sent s symbol i st :
  game_over_on (<[i := symbol]> (board st)) = true ->
  let bd := <[i := symbol]> (board st) in
  exists tr,
    sent (final (accept_move s symbol i st)) =
    sent st ++ to_players st "board_update" (PBoard bd)
            ++ to_players st "game_over" (PStr (outcome_text bd))
            ++ tr ++ [Next s] /\
    Forall (hang_up_entry st) tr.
Proof.
  intros Hover bd. rewrite accept_move_over by done. cbn [final].
  destruct (announce_sent (outcome_text bd) (written symbol i st)) as (tr & E & Htr).
  exists tr. split.
  - rewrite log_sent. fold bd. rewrite E, written_sent, to_players_written.
    unfold to_players. by rewrite <- !app_assoc.
  - eapply Forall_impl; [exact Htr |]. intros e. apply hang_up_entry_mono.
    intros t. apply seated_written.
Qed.

Lemma to_players_elem st event data e :
  e ∈ to_players st event data <-> exists t, seated st t /\ e = Emit t event data.
Proof.
  unfold to_players, seated. rewrite elem_of_app. split.
  - intros [H | H]; [destruct (firstPlayerSocket st) as [t|] eqn:E
                    | destruct (secondPlayerSocket st) as [t|] eqn:E];
      try (by apply elem_of_nil in H); apply list_elem_of_singleton in H; eauto.
  - intros (t & [H | H] & ->); rewrite H; [left | right]; apply list_elem_of_here.
Qed.

Lemma hang_up_entry_emit st t event data :
  hang_up_entry st (Emit t event data) -> event = "game_over" /\ seated st t.
Proof. by intros (? & _ & ?). Qed.

(** If [e] is not in [es], a split of [es ++ rest] at [e] falls in [rest]. *)
Lemma split_after (es rest pre post : list effect) e :
  e ∉ es -> es ++ rest = pre ++ e :: post ->
  exists pre', pre = es ++ pre' /\ rest = pre' ++ e :: post.
Proof.
  intros Hne Heq. apply app_eq_inv in Heq as [(k & E1 & E2) | (k & E1 & E2)].
  - destruct k as [|e' k].
    + exists []. rewrite app_nil_r in *. cbn in E2. by subst.
    + cbn in E2. injection E2 as <- _. exfalso. apply Hne. rewrite E1.
      apply elem_of_app. right. apply list_elem_of_here.
  - by exists k.
Qed.

(** C10: an accepted move that ends the game sends the final board to the
    players and only then [game_over]. The handler returns; what it has
    sent begins with the board to each player, then [game_over] with the
    outcome to each player; then come the calls of [disconnect] of
    [cleanUp] together with the [game_over] of the ['disconnect'] listeners
    these calls run, and last the acknowledgement. Every [game_over] in it,
    also one of a listener, comes after the [board_update] with the final
    board to the same socket. *)
Theorem C10_board_update_before_game_over st s symbol input i :
  in_bounds (board st) input ->
  array_index (js_pred input) = Some i ->
  board st !! i = Some Dot ->
  fst (checkForGameOver (written symbol i st)) = true ->
  let bd := <[i := symbol]> (board st) in
  exists st' outcome tr,
    on_turn_taken s symbol input st = Ok st' /\
    response st st' =
      to_players st "board_update" (PBoard bd)
      ++ to_players st "game_over" (PStr outcome)
      ++ tr ++ [Next s] /\
    Forall (hang_up_entry st) tr /\
    forall pre t data post,
      response st st' = pre ++ Emit t "game_over" data :: post ->
      Emit t "board_update" (PBoard bd) ∈ pre.
Proof.
  intros Hin Hi Hdot Hover bd. subst bd. set (bd := <[i := symbol]> (board st)) in *.
  rewrite checkForGameOver_over in Hover.
  destruct (written_fields symbol i st) as (_ & _ & Hbd & _).
  rewrite Hbd in Hover.
  rewrite (on_turn_taken_accepted s symbol input i st) by done.
  destruct (accept_move_over_sent s symbol i st Hover) as (tr & Hsent & Htr).
  rewrite accept_move_over in * by done. cbn [final] in Hsent.
  apply response_app in Hsent.
  eexists _, (outcome_text bd), tr. split; [reflexivity |].
  split; [exact Hsent |]. split; [exact Htr |].
  intros pre t data post Hsplit. rewrite Hsent in Hsplit.
  apply split_after in Hsplit as (pre' & -> & Hrest).
  - apply elem_of_app. left. apply to_players_elem. exists t. split; [| done].
    assert (He : Emit t "game_over" data ∈ pre' ++ Emit t "game_over" data :: post).
    { apply elem_of_app. right. apply list_elem_of_here. }
    rewrite <- Hrest in He.
    rewrite !elem_of_app in He. destruct He as [He | [He | He]].
    + apply to_players_elem in He as (t' & Ht' & [= -> _]). done.
    + rewrite Forall_forall in Htr. by apply Htr, hang_up_entry_emit in He as [_ ?].
    + by apply list_elem_of_singleton in He.
  - intros (t' & _ & [=])%to_players_elem.
Qed.

Lemma C10_board_update_before_game_over_witness :
  let st := session 1 2 [X; X; Dot; O; O; Dot; Dot; Dot; Dot] in
  let bd := [X; X; X; O; O; Dot; Dot; Dot; Dot] in
  exists st' outcome tr,
    on_turn_taken 1 X (typed 3) st = Ok st' /\
    response st st' =
      [Emit 1 "board_update" (PBoard bd); Emit 2 "board_update" (PBoard bd);
       Emit 1 "game_over" (PStr outcome); Emit 2 "game_over" (PStr outcome)]
      ++ tr ++ [Next 1] /\
    Forall (hang_up_entry st) tr /\
    forall pre t data post,
      response st st' = pre ++ Emit t "game_over" data :: post ->
      Emit t "board_update" (PBoard bd) ∈ pre.
Proof.
  intros st bd.
  apply (C10_board_update_before_game_over st 1 X (typed 3) 2);
    [repeat split | reflexivity | reflexivity | reflexivity].
Defined.
(** ** Moves in a game *)

Lemma existsb_is_dot bd : existsb is_dot bd = true <-> Dot ∈ bd.
Proof.
  rewrite existsb_exists. split.
  - intros ([] & Hin & Hd); try done. by apply list_elem_of_In.
  - intros Hin. exists Dot. split; [by apply list_elem_of_In | done].
Qed.

Lemma first_decisive_none bd :
  first_decisive (line_sums bd) = None <-> Forall (incomplete bd) lines.
Proof.
  rewrite line_sums_lines.
  assert (Hlines : Forall (fun l => l ∈ lines) lines) by (by apply Forall_forall).
  pose proof (first_decisive_lines bd lines Hlines) as Hfirst.
  destruct (first_decisive (map (line_sum bd) lines)) as [who|]; [| done].
  split; [done |]. intros Hinc. exfalso.
  destruct Hfirst as (pre & l & post & m & Hsplit & _ & Hm & Hfull & _).
  rewrite Forall_forall in Hinc. destruct (Hinc l) as [HX HO].
  { rewrite Hsplit. apply elem_of_app. right. apply list_elem_of_here. }
  destruct m; done.
Qed.

Lemma game_over_on_false bd :
  game_over_on bd = false ->
  first_decisive (line_sums bd) = None /\ existsb is_dot bd = true.
Proof.
  unfold game_over_on. destruct (first_decisive _); [done |].
  by intros ->%negb_false_iff.
Qed.

Lemma accept_move_goes_on s symbol i st t :
  game_over_on (<[i := symbol]> (board st)) = false ->
  next_player symbol st = Some t ->
  accept_move s symbol i st =
  Ok (log (Next s) (emit t "turn" PNull (written symbol i st))).
Proof.
  intros [Hnone Hdots]%game_over_on_false Ht.
  rewrite accept_move_eq. cbv zeta. by rewrite Hnone, Hdots, Ht.
Qed.

Lemma in_bounds_length bd bd' input :
  length bd = length bd' -> in_bounds bd input -> in_bounds bd' input.
Proof. unfold in_bounds. by intros ->. Qed.

Lemma next_player_seated a b sym st :
  firstPlayerSocket st = Some a -> secondPlayerSocket st = Some b -> sym <> Dot ->
  next_player sym st = Some (player a b (opponent sym)).
Proof. intros Ha Hb Hsym. by destruct sym. Qed.

Lemma empty_board_lookup i : (i < 9)%nat -> empty_board !! i = Some Dot.
Proof. intros Hi. do 9 (destruct i as [|i]; [reflexivity |]). lia. Qed.

Lemma one_mark_leaves_the_game_open i sym :
  (i < 9)%nat -> game_over_on (<[i := sym]> empty_board) = false.
Proof.
  intros Hi. do 9 (destruct i as [|i]; [by destruct sym |]). lia.
Qed.

Lemma on_turn_taken_rejection s symbol input msg st :
  rejection (board st) input msg ->
  on_turn_taken s symbol input st = Ok (rejected s msg st).
Proof.
  destruct 1.
  - by apply on_turn_taken_unparseable.
  - by apply on_turn_taken_out_of_bounds.
  - by eapply on_turn_taken_occupied.
  - by apply on_turn_taken_no_element.
Qed.

Lemma run_handlers_rejection s input msg syms :
  forall st,
    rejection (board st) input msg ->
    exists st',
      run_handlers (fun symbol => on_turn_taken s symbol input) syms st = Ok st' /\
      firstPlayerSocket st' = firstPlayerSocket st /\
      secondPlayerSocket st' = secondPlayerSocket st /\
      board st' = board st /\
      listeners st' = listeners st /\
      sent st' = sent st ++ prompts s msg (length syms).
Proof.
  induction syms as [|symbol syms IH]; intros st Hrej.
  - exists st. cbn. by rewrite app_nil_r.
  - cbn [run_handlers]. rewrite (on_turn_taken_rejection s symbol input msg) by done.
    destruct (IH (rejected s msg st) Hrej) as (st' & -> & E1 & E2 & E3 & E4 & E5).
    exists st'. repeat split; try done.
    rewrite E5. cbn. by rewrite <- !app_assoc.
Qed.




Lemma handle_turn_taken_started a b symbol input st :
  started a b st -> symbol <> Dot ->
  handle (TurnTaken (player a b symbol) input) st =
  on_turn_taken (player a b symbol) symbol input st.
Proof.
  intros (_ & _ & _ & Ha & Hb) Hsym. cbn [handle].
  rewrite dispatch_registered.
  destruct symbol; [done | |]; cbn [player].
  - rewrite Ha. apply run_handlers_one.
  - rewrite Hb. apply run_handlers_one.
Qed.

Lemma next_player_started a b symbol st :
  started a b st -> symbol <> Dot ->
  next_player symbol st = Some (player a b (opponent symbol)).
Proof. intros (Ha & Hb & _) Hsym. by destruct symbol. Qed.

Lemma started_turn_passed a b s t symbol i st :
  started a b st ->
  started a b (log (Next s) (emit t "turn" PNull (written symbol i st))).
Proof.
  intros (Ha & Hb & Hlen & Hra & Hrb).
  destruct (written_fields symbol i st) as (E1 & E2 & E3 & E4).
  unfold started. cbn [log emit firstPlayerSocket secondPlayerSocket board listeners].
  rewrite E1, E2, E3, E4, length_insert. auto.
Qed.

Lemma opponent_marked symbol : symbol <> Dot -> opponent symbol <> Dot.
Proof. by destruct symbol. Qed.

Lemma in_progress_registered a b sym st :
  in_progress a b st -> sym <> Dot ->
  exists syms,
    registered (player a b sym) (listeners st) = sym :: syms /\ Forall (eq sym) syms.
Proof.
  intros (_ & _ & _ & Ha & HX & Hb & HO) Hsym.
  destruct sym; [done | |]; cbn [player].
  - destruct (registered a (listeners st)) as [|x syms]; [done |].
    apply Forall_cons in HX as [<- HX]. eauto.
  - destruct (registered b (listeners st)) as [|x syms]; [done |].
    apply Forall_cons in HO as [<- HO]. eauto.
Qed.

Lemma hang_up_entry_same st st' e :
  firstPlayerSocket st' = firstPlayerSocket st ->
  secondPlayerSocket st' = secondPlayerSocket st ->
  hang_up_entry st' e -> hang_up_entry st e.
Proof.
  intros E1 E2. apply hang_up_entry_mono. unfold seated. by rewrite E1, E2.
Qed.


(** A move of a running game that ends it: the first handler on the
    mover's socket announces the outcome and resets the game. Where a second
    one is registered it runs on the new board with no player left, writes
    the cell once more and throws on [null.emit]; no further handler runs. *)
Lemma move_ends_the_game a b sym input i st :
  in_progress a b st -> sym <> Dot ->
  in_bounds (board st) input -> array_index (js_pred input) = Some i ->
  board st !! i = Some Dot ->
  game_over_on (<[i := sym]> (board st)) = true ->
  let bd := <[i := sym]> (board st) in
  let r := handle (TurnTaken (player a b sym) input) st in
  firstPlayerSocket (final r) = None /\ secondPlayerSocket (final r) = None /\
  listeners (final r) = listeners st /\
  (exists tr,
      sent (final r) =
        sent st ++
        [Emit a "board_update" (PBoard bd); Emit b "board_update" (PBoard bd);
         Emit a "game_over" (PStr (outcome_text bd));
         Emit b "game_over" (PStr (outcome_text bd))] ++
        tr ++ [Next (player a b sym)] /\
      Forall (hang_up_entry st) tr) /\
  (registered (player a b sym) (listeners st) = [sym] ->
   r = Ok (final r) /\ board (final r) = empty_board) /\
  (registered (player a b sym) (listeners st) <> [sym] ->
   r = Throw "TypeError" (final r) /\ board (final r) = <[i := sym]> empty_board).
Proof.
  intros Hst Hsym Hin Hi Hdot Hover bd r.
  destruct (in_progress_registered a b sym st Hst Hsym) as (syms & Hreg & Hall).
  destruct Hst as (Ha & Hb & Hlen & _).
  subst r. cbn [handle]. rewrite dispatch_registered, Hreg. cbn [run_handlers].
  rewrite (on_turn_taken_accepted _ _ _ i) by done.
  destruct (accept_move_over_sent (player a b sym) sym i st Hover) as (tr & Hsent1 & Htr).
  rewrite accept_move_over in * by done. cbn [final] in Hsent1. fold bd in Hsent1 |- *.
  unfold to_players in Hsent1. rewrite Ha, Hb in Hsent1. cbn [app] in Hsent1.
  set (st1 := log _ _) in *.
  destruct (announce_fields (outcome_text bd) (written sym i st)) as (F1 & F2 & F3 & F4).
  destruct (written_fields sym i st) as (_ & _ & _ & E4).
  assert (G1 : firstPlayerSocket st1 = None) by done.
  assert (G2 : secondPlayerSocket st1 = None) by done.
  assert (G3 : board st1 = empty_board) by done.
  assert (G4 : listeners st1 = listeners st) by (subst st1; cbn [log listeners]; congruence).
  destruct syms as [|sym' syms].
  - cbn [run_handlers final]. repeat split; try done. by exists tr.
  - apply Forall_cons in Hall as [<- _]. cbn [run_handlers].
    assert (Hi9 : (i < 9)%nat) by (apply lookup_lt_Some in Hdot; lia).
    rewrite (on_turn_taken_accepted _ _ _ i); cycle 1.
    { apply (in_bounds_length (board st)); [| done]. by rewrite G3, Hlen. }
    { done. }
    { rewrite G3. by apply empty_board_lookup. }
    rewrite accept_move_eq. cbv zeta. rewrite G3.
    pose proof (one_mark_leaves_the_game_open i sym Hi9) as Hopen.
    apply game_over_on_false in Hopen as [-> ->].
    assert (Hnext : next_player sym st1 = None) by (by destruct sym).
    rewrite Hnext. cbn [final].
    destruct (written_fields sym i st1) as (W1 & W2 & W3 & W4).
    rewrite W1, W2, W3, W4, written_sent, G1, G2, G3, G4, !app_nil_r.
    repeat split; try done. by exists tr.
Qed.

(** ** Games that end in a tie (C5) *)







(** ** Rejected moves (C6) *)

Lemma turn_holder_from_app holder es es' :
  turn_holder_from holder (es ++ es') =
  turn_holder_from (turn_holder_from holder es) es'.
Proof.
  revert holder. induction es as [|[] es IH]; intros holder; cbn; auto.
Qed.

Lemma turn_holder_from_prompts holder s msg n :
  turn_holder_from holder (prompts s msg n) =
  match n with 0%nat => holder | _ => Some s end.
Proof.
  revert holder. induction n as [|n IH]; intros holder; [done |].
  cbn. rewrite IH. by destruct n.
Qed.

(** C6, as the code has it: a rejected move changes nothing of the board,
    the players and the handlers, and all the server sends is the prompt to
    the submitting socket (with the acknowledgement), once for each time
    the handler is registered on it. The prompt is a [turn] event: the turn
    is then with the submitter, whoever held it before; it has not moved
    only if the submitter held it. *)
Theorem C6_rejected_move_changes_nothing st s input msg :
  rejection (board st) input msg ->
  registered s (listeners st) <> [] ->
  exists st',
    handle (TurnTaken s input) st = Ok st' /\
    board st' = board st /\
    firstPlayerSocket st' = firstPlayerSocket st /\
    secondPlayerSocket st' = secondPlayerSocket st /\
    listeners st' = listeners st /\
    response st st' = prompts s msg (length (registered s (listeners st))) /\
    turn_holder st' = Some s /\
    (turn_holder st = Some s -> turn_holder st' = turn_holder st).
Proof.
  intros Hrej Hreg. cbn [handle]. rewrite dispatch_registered.
  destruct (run_handlers_rejection s input msg (registered s (listeners st)) st Hrej)
    as (st' & -> & E1 & E2 & E3 & E4 & E5).
  exists st'. repeat split; try done.
  - by apply response_app.
  - unfold turn_holder. rewrite E5, turn_holder_from_app, turn_holder_from_prompts.
    by destruct (registered s (listeners st)).
  - intros ->. unfold turn_holder. rewrite E5, turn_holder_from_app, turn_holder_from_prompts.
    by destruct (registered s (listeners st)).
Qed.

Lemma C6_rejected_move_changes_nothing_witness :
  let st := final (handle (TurnTaken 1 (typed 5)) (on_connection 2 (on_connection 1 init))) in
  turn_holder st = Some 2%nat /\
  exists st',
    handle (TurnTaken 2 (typed 5)) st = Ok st' /\
    board st' = board st /\
    firstPlayerSocket st' = firstPlayerSocket st /\
    secondPlayerSocket st' = secondPlayerSocket st /\
    listeners st' = listeners st /\
    response st st' = [Emit 2%nat "turn" (PStr msg_occupied); Next 2%nat] /\
    turn_holder st' = Some 2%nat /\
    (turn_holder st = Some 2%nat -> turn_holder st' = turn_holder st).
Proof.
  intros st. split; [reflexivity |].
  apply (C6_rejected_move_changes_nothing st 2%nat (typed 5) msg_occupied).
  - apply (occupied _ _ 4%nat); [repeat split | reflexivity | discriminate].
  - discriminate.
Defined.

(** C6 as stated fails for a submitter who does not hold the turn: after the
    game has started the turn is with the first player; an unparseable move
    of the second is rejected, the board stays as it is, and the prompt hands
    the turn to the second player. *)
Lemma C6_counterexample :
  let st := final (run [Connection 1; Connection 2] init) in
  let st' := final (handle (TurnTaken 2 NaN) st) in
  turn_holder st = Some 1%nat /\
  rejection (board st) NaN msg_parse /\
  handle (TurnTaken 2 NaN) st = Ok st' /\
  response st st' = [Emit 2%nat "turn" (PStr msg_parse); Next 2%nat] /\
  board st' = board st /\
  turn_holder st' = Some 2%nat /\
  turn_holder st' <> turn_holder st.
Proof.
  intros st st'. repeat split; try reflexivity.
  - by apply unparseable.
  - discriminate.
Qed.

(** ** The order of the checks (C7) *)

Lemma rejected_sent s msg st :
  sent (rejected s msg st) = sent st ++ [Emit s "turn" (PStr msg); Next s].
Proof. cbn. by rewrite <- app_assoc. Qed.

Lemma rejected_inj s msg msg' st :
  rejected s msg st = rejected s msg' st -> msg = msg'.
Proof.
  intros H. apply (f_equal sent) in H. rewrite !rejected_sent in H.
  apply app_inv_head in H. by injection H.
Qed.

(** An accepted move is no rejection: what it sends differs. *)
Lemma accept_move_not_rejected s symbol i msg st :
  accept_move s symbol i st <> Ok (rejected s msg st).
Proof.
  intros H. apply (f_equal (fun r => sent (final r))) in H.
  cbn [final] in H. rewrite rejected_sent in H.
  destruct (game_over_on (<[i := symbol]> (board st))) eqn:Hover.
  - destruct (accept_move_over_sent s symbol i st Hover) as (tr & E & Htr).
    cbv zeta in E. rewrite E in H. apply app_inv_head in H.
    change [Emit s "turn" (PStr msg); Next s]
      with ([Emit s "turn" (PStr msg)] ++ [Next s]) in H.
    rewrite !app_assoc in H. apply app_inj_tail in H as [H _].
    assert (He : Emit s "turn" (PStr msg) ∈ [Emit s "turn" (PStr msg)])
      by apply list_elem_of_here.
    rewrite <- H, !elem_of_app in He. destruct He as [[He | He] | He].
    + by apply to_players_elem in He as (t & _ & [=]).
    + by apply to_players_elem in He as (t & _ & [=]).
    + rewrite Forall_forall in Htr. by apply Htr, hang_up_entry_emit in He as [? _].
  - rewrite accept_move_eq in H. cbv zeta in H.
    apply game_over_on_false in Hover as [Hnone Hdots]. rewrite Hnone, Hdots in H.
    destruct (next_player symbol st) as [t|]; cbn [final log emit sent] in H;
      rewrite written_sent, <- ?app_assoc in H; apply app_inv_head in H;
      destruct (firstPlayerSocket st), (secondPlayerSocket st); discriminate H.
Qed.

(** Every input meets exactly one case of the handler. *)
Lemma on_turn_taken_cases s symbol input st :
  (exists msg, rejection (board st) input msg /\
               on_turn_taken s symbol input st = Ok (rejected s msg st)) \/
  (exists i, in_bounds (board st) input /\ array_index (js_pred input) = Some i /\
             board st !! i = Some Dot /\
             on_turn_taken s symbol input st = accept_move s symbol i st).
Proof.
  destruct (isNaN input) eqn:Hnan.
  { left. exists msg_parse. split; [by constructor | by apply on_turn_taken_unparseable]. }
  destruct (js_neg (js_pred input)) eqn:Hneg.
  { left. exists msg_bounds.
    split; [constructor; auto | apply on_turn_taken_out_of_bounds; auto]. }
  destruct (js_ge (js_pred input) (length (board st))) eqn:Hge.
  { left. exists msg_bounds.
    split; [constructor; auto | apply on_turn_taken_out_of_bounds; auto]. }
  assert (Hin : in_bounds (board st) input) by (by rewrite <- isNaN_pred in Hnan).
  destruct (array_index (js_pred input)) as [i|] eqn:Hi.
  - destruct (decide (board st !! i = Some Dot)) as [Hdot | Hdot].
    + right. exists i. do 3 (split; [done |]). by apply on_turn_taken_accepted.
    + left. exists msg_occupied.
      split; [by apply (occupied _ _ i) | by apply (on_turn_taken_occupied _ _ _ i)].
  - left. exists msg_occupied.
    split; [by apply no_such_cell | by apply on_turn_taken_no_element].
Qed.

(** The verdict of the handler determines the case. *)
Lemma on_turn_taken_rejected_inv s symbol input msg st :
  on_turn_taken s symbol input st = Ok (rejected s msg st) ->
  rejection (board st) input msg.
Proof.
  intros H.
  destruct (on_turn_taken_cases s symbol input st)
    as [(msg' & Hrej & H') | (i & _ & _ & _ & H')]; rewrite H' in H.
  - apply (f_equal final) in H. cbn [final] in H.
    apply rejected_inj in H. by subst.
  - by apply accept_move_not_rejected in H.
Qed.

Lemma rejection_parse_inv bd input : rejection bd input msg_parse -> input = NaN.
Proof. inversion 1. by destruct input. Qed.

Lemma rejection_bounds_inv bd input :
  rejection bd input msg_bounds ->
  js_neg (js_pred input) = true \/ js_ge (js_pred input) (length bd) = true.
Proof. inversion 1. done. Qed.

Lemma rejection_occupied_inv bd input :
  rejection bd input msg_occupied ->
  in_bounds bd input /\
  forall i, array_index (js_pred input) = Some i -> bd !! i <> Some Dot.
Proof.
  inversion 1 as [| | i Hin Hi Hdot | Hin Hi].
  - split; [done |]. intros i' Hi'. congruence.
  - split; [done |]. intros i' Hi'. congruence.
Qed.

Lemma accept_move_written s symbol i st :
  let bd := <[i := symbol]> (board st) in
  (exists rest,
      sent (final (accept_move s symbol i st)) =
      sent st ++ to_players st "board_update" (PBoard bd) ++ rest) /\
  (game_over_on bd = false -> board (final (accept_move s symbol i st)) = bd).
Proof.
  intros bd. subst bd.
  destruct (game_over_on (<[i := symbol]> (board st))) eqn:Hover.
  - split; [| done].
    destruct (accept_move_over_sent s symbol i st Hover) as (tr & E & _). cbv zeta in E.
    eexists. exact E.
  - rewrite accept_move_eq. cbv zeta.
    apply game_over_on_false in Hover as [-> ->].
    destruct (written_fields symbol i st) as (E1 & E2 & E3 & _).
    assert (Hw : sent (written symbol i st) =
                 sent st ++ to_players st "board_update"
                              (PBoard (<[i := symbol]> (board st))))
      by apply written_sent.
    destruct (next_player symbol st); cbn [final log emit sent board].
    + split; [| done]. rewrite Hw. eexists. rewrite <- !app_assoc. reflexivity.
    + split; [| done]. rewrite Hw. exists []. by rewrite app_nil_r.
Qed.

(** C7, as the code has it: the input converted by [Number] is rejected as
    unparseable exactly when it is [NaN]; otherwise it is decremented and
    rejected as out of bounds exactly when the result is below [0] or at
    least [9]; a whole number [n] with [n - 1] in [[0,8]] is rejected as
    occupied exactly when cell [n - 1] is not empty, and otherwise the
    symbol of the socket is written to that cell: the board with it is what
    the players are sent first, and it is the board the handler leaves
    unless the move ends the game. *)
Theorem C7_validation_order st s symbol input :
  length (board st) = 9%nat ->
  (on_turn_taken s symbol input st = Ok (rejected s msg_parse st) <-> input = NaN) /\
  (forall negative, input = Infinity negative ->
     on_turn_taken s symbol input st = Ok (rejected s msg_bounds st)) /\
  (forall q, input = Finite q ->
     on_turn_taken s symbol input st = Ok (rejected s msg_bounds st) <->
     (q - 1 < 0 \/ 9 <= q - 1)%Q) /\
  (forall n, input = typed n -> (0 <= n - 1 <= 8)%Z ->
     let i := Z.to_nat (n - 1) in
     let bd := <[i := symbol]> (board st) in
     let st' := final (on_turn_taken s symbol input st) in
     (on_turn_taken s symbol input st = Ok (rejected s msg_occupied st) <->
      board st !! i <> Some Dot) /\
     (board st !! i = Some Dot ->
      on_turn_taken s symbol input st = accept_move s symbol i st /\
      (exists rest,
          response st st' = to_players st "board_update" (PBoard bd) ++ rest) /\
      (game_over_on bd = false -> board st' = bd))).
Proof.
  intros Hlen. split; [split | split; [| split]].
  - intros Hr. eapply rejection_parse_inv, on_turn_taken_rejected_inv, Hr.
  - intros ->. by apply on_turn_taken_unparseable.
  - intros negative ->. apply on_turn_taken_out_of_bounds; [done |].
    rewrite Hlen. destruct negative; auto.
  - intros q ->. cbn [js_pred]. split.
    + intros Hr. apply on_turn_taken_rejected_inv, rejection_bounds_inv in Hr.
      rewrite Hlen in Hr. cbn [js_pred] in Hr.
      by rewrite js_neg_finite, js_ge_finite in Hr.
    + intros Hq. apply on_turn_taken_out_of_bounds; [done |].
      rewrite Hlen. cbn [js_pred]. by rewrite js_neg_finite, js_ge_finite.
  - intros n -> Hn i bd st'.
    assert (Hin : in_bounds (board st) (typed n)) by (apply in_bounds_typed; lia).
    assert (Hi : array_index (js_pred (typed n)) = Some i)
      by (apply array_index_typed; lia).
    split; [split |].
    + intros Hr. apply on_turn_taken_rejected_inv, rejection_occupied_inv in Hr.
      destruct Hr as [_ Hr]. by apply Hr.
    + intros Hdot. by apply (on_turn_taken_occupied _ _ _ i).
    + intros Hdot. subst st'.
      rewrite (on_turn_taken_accepted s symbol (typed n) i st) by done.
      split; [done |].
      destruct (accept_move_written s symbol i st) as [[rest Hsent] Hboard].
      split; [| exact Hboard].
      exists rest. by apply response_app.
Qed.

Lemma C7_validation_order_witness :
  let st := session 1 2 [X; Dot; Dot; Dot; O; Dot; Dot; Dot; Dot] in
  let bd := [X; O; Dot; Dot; O; Dot; Dot; Dot; Dot] in
  on_turn_taken 2 O NaN st = Ok (rejected 2 msg_parse st) /\
  on_turn_taken 2 O (typed 10) st = Ok (rejected 2 msg_bounds st) /\
  on_turn_taken 2 O (typed 1) st = Ok (rejected 2 msg_occupied st) /\
  on_turn_taken 2 O (typed 2) st = accept_move 2 O 1 st /\
  (exists rest,
      response st (final (on_turn_taken 2 O (typed 2) st)) =
      [Emit 1 "board_update" (PBoard bd); Emit 2 "board_update" (PBoard bd)] ++ rest) /\
  (game_over_on bd = false -> board (final (on_turn_taken 2 O (typed 2) st)) = bd).
Proof.
  intros st bd.
  assert (Hlen : length (board st) = 9%nat) by reflexivity.
  refine (conj _ (conj _ (conj _ _))).
  - by apply (C7_validation_order st 2%nat O NaN Hlen).
  - apply (proj1 (proj2 (proj2 (C7_validation_order st 2%nat O (typed 10) Hlen)))
             (inject_Z 10) eq_refl).
    right. by vm_compute.
  - apply (proj2 (proj2 (proj2 (C7_validation_order st 2%nat O (typed 1) Hlen)))
             1%Z eq_refl); [lia | discriminate].
  - apply (proj2 (proj2 (proj2 (C7_validation_order st 2%nat O (typed 2) Hlen)))
             2%Z eq_refl); [lia | reflexivity].
Defined.

(** C7 as stated fails on an input that is a number but no whole number:
    ["1.5"] converts to [1.5], the position [0.5] passes both tests, and the
    move is rejected as occupied, on an empty board, not as unparseable. *)
Lemma C7_counterexample :
  let st := session 1 2 empty_board in
  (forall n : Z, ~ (3 # 2 == inject_Z n)%Q) /\
  on_turn_taken 1 X (Finite (3 # 2)) st = Ok (rejected 1 msg_occupied st) /\
  on_turn_taken 1 X (Finite (3 # 2)) st <> Ok (rejected 1 msg_parse st) /\
  Forall (eq Dot) (board st).
Proof.
  intros st. repeat split.
  - intros n. unfold Qeq. cbn. lia.
  - intros H. vm_compute in H. discriminate H.
  - by repeat constructor.
Qed.

(** ** The cells of the board (C9) *)

Lemma marks_kept_insert bd i sym :
  bd !! i = Some Dot -> marks_kept bd (<[i := sym]> bd).
Proof.
  intros Hdot k c Hk Hc. rewrite list_lookup_insert_ne; [done |].
  intros ->. congruence.
Qed.

Lemma on_connection_board s st : board (on_connection s st) = board st.
Proof.
  unfold on_connection.
  destruct (firstPlayerSocket st) eqn:E1, (secondPlayerSocket st) eqn:E2;
    cbn; rewrite ?E1, ?E2; reflexivity.
Qed.

Lemma announceWinnerByDisconnection_announce winner st :
  announceWinnerByDisconnection winner st =
  announce ("won by " +:+ winner +:+ " player since "
            +:+ (if String.eqb winner "first" then "second" else "first")
            +:+ " player disconnected") st.
Proof. reflexivity. Qed.

Lemma announceWinnerByResignation_announce winner st :
  announceWinnerByResignation winner st =
  announce ("won by " +:+ winner +:+ " player due to resignation") st.
Proof. reflexivity. Qed.

Lemma leave_operation_board op st :
  match op with
  | OnDisconnect _ _ | OnResign _ _ | OnTurnError _ _ _ =>
      board (final (run_operation op st)) = empty_board
  | _ => True
  end.
Proof.
  destruct op as [s | s sym | s sym | s sym input | s sym err];
    cbn [run_operation final on_disconnect on_resign on_turn_error]; try done;
    rewrite ?announceWinnerByDisconnection_announce, ?announceWinnerByResignation_announce;
    apply announce_fields.
Qed.

(** The board after an accepted move: reset when the move ends the game,
    and with the one cell written otherwise. *)
Lemma accept_move_board s sym i st :
  board (final (accept_move s sym i st)) =
  if game_over_on (<[i := sym]> (board st)) then empty_board
  else <[i := sym]> (board st).
Proof.
  destruct (game_over_on (<[i := sym]> (board st))) eqn:Hover.
  - rewrite accept_move_over by done. cbn [final log board]. apply announce_fields.
  - by apply accept_move_written.
Qed.

(** The board after one run of a handler: untouched, or one empty cell
    marked, or reset by [cleanUp]. *)
Lemma run_operation_board op st :
  let bd' := board (final (run_operation op st)) in
  bd' = board st \/
  bd' = empty_board \/
  exists i sym, board st !! i = Some Dot /\ bd' = <[i := sym]> (board st).
Proof.
  pose proof (leave_operation_board op st) as Hleave.
  destruct op as [s | s sym | s sym | s sym input | s sym err]; cbv zeta; auto.
  - left. apply on_connection_board.
  - cbn [run_operation].
    destruct (on_turn_taken_cases s sym input st)
      as [(msg & _ & ->) | (i & _ & _ & Hdot & ->)].
    + by left.
    + rewrite accept_move_board.
      destruct (game_over_on _); [by right; left |].
      right. right. by exists i, sym.
Qed.

Lemma run_operation_length op st :
  length (board st) = 9%nat ->
  length (board (final (run_operation op st))) = 9%nat.
Proof.
  intros Hlen.
  destruct (run_operation_board op st) as [-> | [-> | (i & sym & _ & ->)]];
    [done | done | by rewrite length_insert].
Qed.

(** Handling an event is a sequence of such runs. *)
Lemma run_handlers_length handler syms :
  (forall sym st, length (board st) = 9%nat ->
                  length (board (final (handler sym st))) = 9%nat) ->
  forall st, length (board st) = 9%nat ->
             length (board (final (run_handlers handler syms st))) = 9%nat.
Proof.
  intros Hh. induction syms as [|sym syms IH]; intros st Hlen; [done |].
  cbn [run_handlers]. specialize (Hh sym st Hlen).
  destruct (handler sym st); [by apply IH | done].
Qed.

Lemma handle_length e st :
  length (board st) = 9%nat -> length (board (final (handle e st))) = 9%nat.
Proof.
  intros Hlen. destruct e as [s | s | s | s input | s err]; cbn [handle];
    rewrite ?dispatch_registered.
  - apply (run_operation_length (OnConnection s)), Hlen.
  - apply run_handlers_length; [| done].
    intros sym st'. apply (run_operation_length (OnDisconnect s sym)).
  - apply run_handlers_length; [| done].
    intros sym st'. apply (run_operation_length (OnResign s sym)).
  - apply run_handlers_length; [| done].
    intros sym st'. apply (run_operation_length (OnTurnTaken s sym input)).
  - apply run_handlers_length; [| done].
    intros sym st'. apply (run_operation_length (OnTurnError s sym err)).
Qed.

Lemma run_length events :
  forall st, length (board st) = 9%nat ->
             length (board (final (run events st))) = 9%nat.
Proof.
  induction events as [|e events IH]; intros st Hlen; [done |].
  cbn [run]. pose proof (handle_length e st Hlen) as Hl.
  destruct (handle e st); [by apply IH | done].
Qed.

(** C9: whatever events the server has handled, the board has nine cells.
    [cleanUp] is the reset: it leaves the nine empty cells, whatever the
    board was. One run of a handler on a board of nine cells leaves nine
    cells, and what it does to them depends on the handler alone: the
    connection handler and a rejected move leave the board as it is; an
    accepted move that does not end the game writes the mover's symbol into
    the one cell, which was empty, and every mark stays where it is; an
    accepted move that ends the game, and every run of a handler of
    [disconnect], [resign] or [turn_error], resets the board. *)
Theorem C9_board_cells :
  (forall events, length (board (final (run events init))) = 9%nat) /\
  (forall st, board (cleanUp st) = empty_board) /\
  empty_board = replicate 9 Dot /\
  (forall st op,
     length (board st) = 9%nat ->
     let bd' := board (final (run_operation op st)) in
     length bd' = 9%nat /\
     match op with
     | OnConnection _ => bd' = board st
     | OnDisconnect _ _ | OnResign _ _ | OnTurnError _ _ _ => bd' = empty_board
     | OnTurnTaken s sym input =>
         (exists msg, rejection (board st) input msg /\ bd' = board st) \/
         (exists i,
             in_bounds (board st) input /\ array_index (js_pred input) = Some i /\
             board st !! i = Some Dot /\
             if game_over_on (<[i := sym]> (board st)) then bd' = empty_board
             else bd' = <[i := sym]> (board st) /\ marks_kept (board st) bd')
     end).
Proof.
  split; [| split; [| split]].
  - intros events. by apply run_length.
  - intros st. apply cleanUp_fields.
  - reflexivity.
  - intros st op Hlen bd'. split; [by apply run_operation_length |].
    pose proof (leave_operation_board op st) as Hleave.
    destruct op as [s | s sym | s sym | s sym input | s sym err]; try exact Hleave.
    + apply on_connection_board.
    + subst bd'. cbn [run_operation].
      destruct (on_turn_taken_cases s sym input st)
        as [(msg & Hrej & ->) | (i & Hin & Hi & Hdot & ->)].
      * left. by exists msg.
      * right. exists i. rewrite accept_move_board.
        refine (conj Hin (conj Hi (conj Hdot _))).
        destruct (game_over_on (<[i := sym]> (board st))); [done |].
        split; [done | by apply marks_kept_insert].
Qed.

Lemma C9_board_cells_witness :
  let st := session 1 2 [X; O; Dot; Dot; Dot; Dot; Dot; Dot; Dot] in
  let bd' := board (final (run_operation (OnTurnTaken 1 X (typed 5)) st)) in
  length (board st) = 9%nat /\
  length bd' = 9%nat /\
  ((exists msg, rejection (board st) (typed 5) msg /\ bd' = board st) \/
   (exists i,
       in_bounds (board st) (typed 5) /\ array_index (js_pred (typed 5)) = Some i /\
       board st !! i = Some Dot /\
       if game_over_on (<[i := X]> (board st)) then bd' = empty_board
       else bd' = <[i := X]> (board st) /\ marks_kept (board st) bd')).
Proof.
  intros st bd'.
  assert (Hlen : length (board st) = 9%nat) by reflexivity.
  exact (conj Hlen (proj2 (proj2 (proj2 C9_board_cells)) st (OnTurnTaken 1 X (typed 5)) Hlen)).
Defined.
(** ** The winner of a complete line (C4) *)

Lemma undecided_empty_board : undecided empty_board.
Proof. split; [| by repeat constructor]. apply (bool_decide_unpack _). by vm_compute. Qed.

Lemma undecided_game_over_on bd : game_over_on bd = false -> undecided bd.
Proof.
  intros [Hnone Hdots]%game_over_on_false. split.
  - by apply first_decisive_none.
  - by apply existsb_is_dot.
Qed.

(** The board after one run of a handler, with the verdict of
    [checkForGameOver] where a cell was written. *)
Lemma run_operation_board_open op st :
  let bd' := board (final (run_operation op st)) in
  bd' = board st \/ bd' = empty_board \/ game_over_on bd' = false.
Proof.
  destruct op as [s | s sym | s sym | s sym input | s sym err]; cbn [run_operation final].
  - left. apply on_connection_board.
  - right. left. apply announce_fields.
  - right. left. apply announce_fields.
  - destruct (on_turn_taken_cases s sym input st)
      as [(msg & _ & ->) | (i & _ & _ & Hdot & ->)].
    + by left.
    + rewrite accept_move_eq. cbv zeta.
      destruct (written_fields sym i st) as (_ & _ & Hbd & _).
      unfold game_over_on.
      destruct (first_decisive (line_sums (<[i := sym]> (board st)))) eqn:Hfirst;
        [| destruct (existsb is_dot (<[i := sym]> (board st))) eqn:Hdots]; cbn [final].
      * right. left. apply announce_fields.
      * right. right.
        assert (Hb : forall st1, board st1 = <[i := sym]> (board st) ->
                       match first_decisive (line_sums (board st1)) with
                       | Some _ => true
                       | None => negb (existsb is_dot (board st1))
                       end = false).
        { intros st1 ->. by rewrite Hfirst, Hdots. }
        destruct (next_player sym st); cbn [final]; by apply Hb.
      * right. left. apply announce_fields.
  - right. left. apply announce_fields.
Qed.





(** ** A player leaves (C8) *)

Lemma wire_app es es' : wire (es ++ es') = wire es ++ wire es'.
Proof. apply List.filter_app. Qed.

Lemma handle_leaves s e st :
  leaves s e ->
  handle e st =
  run_handlers (leave_handler e s) (registered s (listeners st)) (on_arrival e st).
Proof. destruct 1; cbn [handle on_arrival]; by rewrite dispatch_registered. Qed.

Lemma on_arrival_fields e st :
  firstPlayerSocket (on_arrival e st) = firstPlayerSocket st /\
  secondPlayerSocket (on_arrival e st) = secondPlayerSocket st /\
  board (on_arrival e st) = board st /\
  listeners (on_arrival e st) = listeners st /\
  sent (on_arrival e st) = sent st.
Proof. by destruct e. Qed.

(** The handler as one announcement, after a line on the console in the
    case of [turn_error]. *)
Lemma leave_handler_eq e s sym st :
  sym <> Dot ->
  exists console,
    wire console = [] /\
    leave_handler e s sym st =
    Ok (announce (leave_text e (ordinal (opponent sym)) (ordinal sym))
          (mkState (firstPlayerSocket st) (secondPlayerSocket st) (board st)
                   (listeners st) (sent st ++ console) (closed st))).
Proof.
  intros Hsym.
  destruct e as [s' | s' | s' | s' input | s' err]; cbn [leave_handler leave_text].
  1, 2, 4: exists []; split; [done |]; rewrite app_nil_r;
    destruct st, sym; done.
  - exists []. split; [done |]. rewrite app_nil_r. destruct st, sym; done.
  - exists [ConsoleError (ordinal sym +:+ " player had an error with input ("
                           +:+ err +:+ "). assuming disconnection.")].
    split; [done |]. destruct sym; done.
Qed.


(** With no player in the variables, hanging up adds nothing. *)
Lemma hang_up_empty st tr :
  firstPlayerSocket st = None -> secondPlayerSocket st = None ->
  Forall (hang_up_entry st) tr -> tr = [].
Proof.
  intros H1 H2 Htr.
  destruct tr as [|e0 tr]; [done |]. apply Forall_cons in Htr as [He _]. exfalso.
  assert (Hno : forall t, ~ seated st t) by (intros t [H | H]; congruence).
  destruct e0 as [t ev d | t | |]; try done.
  - apply hang_up_entry_emit in He as [_ He]. by apply (Hno t).
  - by apply (Hno t).
Qed.





(** ** A connection when both slots are filled (C2) *)

Lemma on_connection_full st a b s :
  firstPlayerSocket st = Some a -> secondPlayerSocket st = Some b ->
  on_connection s st =
  mkState (Some a) (Some b) (board st)
          (listeners st ++ [(a, X); (b, O)])
          (sent st ++ [Emit s "reject" (PStr msg_reject);
                       Emit a "game_start" (PStr "first");
                       Emit b "game_start" (PStr "second");
                       Emit a "turn" PNull])
          (closed st).
Proof.
  destruct st as [first second bd ls es cl]. cbn -[app]. intros -> ->.
  unfold on_connection. cbn -[app].
  unfold emit, setupSocket, log, add_listener. cbn -[app].
  by rewrite <- !app_assoc.
Qed.

(** C2, evaluated: sockets 1 and 2 play, the first player has taken the
    centre and the turn is with the second. When socket 3 connects it is
    sent [reject] and is not disconnected by the server; the handler then
    goes on to the start of the game: the handlers of both players are
    registered a second time, both are sent [game_start] again and the first
    player is granted the turn. The next move of the second player is
    handled twice, the second time as a move onto an occupied cell. *)
Theorem C2_third_connection_disturbs_the_game :
  let st := final (run [Connection 1; Connection 2; TurnTaken 1 (typed 5)] init) in
  let st' := on_connection 3 st in
  let st'' := final (handle (TurnTaken 2 (typed 1)) st') in
  firstPlayerSocket st = Some 1%nat /\ secondPlayerSocket st = Some 2%nat /\
  turn_holder st = Some 2%nat /\
  listeners st = [(1%nat, X); (2%nat, O)] /\
  response st st' =
    [Emit 3%nat "reject" (PStr msg_reject);
     Emit 1%nat "game_start" (PStr "first");
     Emit 2%nat "game_start" (PStr "second");
     Emit 1%nat "turn" PNull] /\
  listeners st' = [(1%nat, X); (2%nat, O); (1%nat, X); (2%nat, O)] /\
  turn_holder st' = Some 1%nat /\
  board st' = board st /\
  response st' st'' =
    [Emit 1%nat "board_update" (PBoard [O; Dot; Dot; Dot; X; Dot; Dot; Dot; Dot]);
     Emit 2%nat "board_update" (PBoard [O; Dot; Dot; Dot; X; Dot; Dot; Dot; Dot]);
     Emit 1%nat "turn" PNull; Next 2%nat;
     Emit 2%nat "turn" (PStr msg_occupied); Next 2%nat].
Proof. repeat split. Qed.

(** ** Moves out of turn (C1) *)

(** C1 as stated fails on the server: after the game has started the turn
    is with the first player, yet a move sent on the second player's socket
    is taken: the board changes and nothing is rejected. *)
Lemma C1_counterexample :
  let st := final (run [Connection 1; Connection 2] init) in
  let st' := final (handle (TurnTaken 2 (typed 1)) st) in
  turn_holder st = Some 1%nat /\
  secondPlayerSocket st = Some 2%nat /\
  handle (TurnTaken 2 (typed 1)) st = Ok st' /\
  board st = empty_board /\
  board st' = [O; Dot; Dot; Dot; Dot; Dot; Dot; Dot; Dot] /\
  response st st' =
    [Emit 1%nat "board_update" (PBoard [O; Dot; Dot; Dot; Dot; Dot; Dot; Dot; Dot]);
     Emit 2%nat "board_update" (PBoard [O; Dot; Dot; Dot; Dot; Dot; Dot; Dot; Dot]);
     Emit 1%nat "turn" PNull; Next 2%nat].
Proof. repeat split. Qed.

(** C1, as the code has it: the turn is checked by the client, not by the
    server. A command, other than [r], entered while the client's [isTurn]
    is false is answered on the client's console with "it's not your turn
    yet!"; nothing is sent, the server and its board stay as they are, and
    no client's flag changes. *)
Theorem C1_out_of_turn_command_stays_at_the_client
    (Number : option string -> number) sys s err arg0 :
  isTurn sys s = false -> arg0 <> Some "r" ->
  exists flags,
    command Number s err arg0 sys = ([PrintError msg_wait; CallNext], Ok (server sys), flags) /\
    board (final (snd (fst (command Number s err arg0 sys)))) = board (server sys) /\
    forall t, flags t = isTurn sys t.
Proof.
  intros Hturn Harg. unfold command, on_command.
  destruct (decide (arg0 = Some "r")) as [? | _]; [done |].
  rewrite Hturn. cbn [receive to_event final fst snd].
  eexists. split; [reflexivity |]. split; [reflexivity |].
  intros t. unfold response. rewrite drop_all. cbn [deliver].
  unfold set_flag. destruct (decide (t = s)) as [-> |]; [by rewrite Hturn | done].
Qed.

Lemma C1_out_of_turn_command_stays_at_the_client_witness :
  let sys := mkSystem (final (run [Connection 1; Connection 2] init))
                      (fun t => Nat.eqb t 1) in
  let Number := fun _ : option string => typed 1 in
  isTurn sys 2%nat = false /\
  exists flags,
    command Number 2%nat None (Some "1") sys =
      ([PrintError msg_wait; CallNext], Ok (server sys), flags) /\
    board (final (snd (fst (command Number 2%nat None (Some "1") sys)))) = board (server sys) /\
    forall t, flags t = isTurn sys t.
Proof.
  intros sys Number. split; [reflexivity |].
  apply (C1_out_of_turn_command_stays_at_the_client Number sys 2%nat None (Some "1"));
    [reflexivity | discriminate].
Defined.

(** * Further properties of the code *)

(** ** Seating the players *)

Lemma registered_app s ls ls' :
  registered s (ls ++ ls') = registered s ls ++ registered s ls'.
Proof. unfold registered. apply omap_app. Qed.

Lemma turn_holder_sent st st' es :
  sent st' = sent st ++ es ->
  turn_holder st' = turn_holder_from (turn_holder st) es.
Proof. unfold turn_holder. intros ->. apply turn_holder_from_app. Qed.

(** Two connections on an empty registry. *)
Lemma on_connection_pair st a b :
  registry_empty st ->
  on_connection a st = set_first (Some a) st /\
  on_connection b (on_connection a st) =
  mkState (Some a) (Some b) (board st)
          (listeners st ++ [(a, X); (b, O)])
          (sent st ++ [Emit a "game_start" (PStr "first");
                       Emit b "game_start" (PStr "second");
                       Emit a "turn" PNull])
          (closed st).
Proof.
  destruct st as [first second bd ls es cl]. intros [H1 H2]. cbn in H1, H2. subst.
  split; [reflexivity |].
  unfold on_connection. cbn -[app].
  unfold emit, setupSocket, log, add_listener. cbn -[app].
  by rewrite <- !app_assoc.
Qed.

Lemma started_pair st a b :
  registry_empty st -> length (board st) = 9%nat ->
  registered a (listeners st) = [] -> registered b (listeners st) = [] ->
  a <> b ->
  started a b (on_connection b (on_connection a st)).
Proof.
  intros Hempty Hlen Ha Hb Hab.
  destruct (on_connection_pair st a b Hempty) as [_ ->].
  unfold started. cbn [firstPlayerSocket secondPlayerSocket board listeners].
  rewrite !registered_app, Ha, Hb. unfold registered. cbn.
  destruct (decide (a = a)); [| done]. destruct (decide (b = b)); [| done].
  destruct (decide (b = a)); [by subst |]. destruct (decide (a = b)); done.
Qed.

(** The game starts when the second player connects: on an empty registry
    the first connection only takes the first slot, without a word to
    anyone; the second takes the second slot, each socket gets its handlers
    once, both are told their ordinal and the first player is granted the
    turn. The board is left as it is. *)
Theorem game_starts_with_the_second_connection st a b :
  registry_empty st -> length (board st) = 9%nat ->
  registered a (listeners st) = [] -> registered b (listeners st) = [] ->
  a <> b ->
  let st1 := on_connection a st in
  let st2 := on_connection b st1 in
  firstPlayerSocket st1 = Some a /\ secondPlayerSocket st1 = None /\
  listeners st1 = listeners st /\ response st st1 = [] /\
  started a b st2 /\ board st2 = board st /\
  response st1 st2 =
    [Emit a "game_start" (PStr "first"); Emit b "game_start" (PStr "second");
     Emit a "turn" PNull] /\
  turn_holder st2 = Some a.
Proof.
  intros Hempty Hlen Ha Hb Hab st1 st2.
  pose proof (started_pair st a b Hempty Hlen Ha Hb Hab) as Hstarted.
  destruct (on_connection_pair st a b Hempty) as [H1 H2].
  subst st2 st1. rewrite H2 in *. rewrite H1.
  destruct Hempty as [_ Hsecond].
  refine (conj eq_refl (conj Hsecond (conj eq_refl (conj _ (conj Hstarted
           (conj eq_refl (conj _ _))))))).
  - unfold response. cbn. by rewrite drop_all.
  - by apply response_app.
  - unfold turn_holder. cbn [sent]. by rewrite turn_holder_from_app.
Qed.

Lemma game_starts_with_the_second_connection_witness :
  let st1 := on_connection 7 init in
  let st2 := on_connection 4 st1 in
  firstPlayerSocket st1 = Some 7%nat /\ secondPlayerSocket st1 = None /\
  listeners st1 = listeners init /\ response init st1 = [] /\
  started 7 4 st2 /\ board st2 = board init /\
  response st1 st2 =
    [Emit 7%nat "game_start" (PStr "first"); Emit 4%nat "game_start" (PStr "second");
     Emit 7%nat "turn" PNull] /\
  turn_holder st2 = Some 7%nat.
Proof.
  apply (game_starts_with_the_second_connection init 7%nat 4%nat);
    [by split | reflexivity | reflexivity | reflexivity | discriminate].
Defined.

(** ** Events from a socket without handlers *)

Lemma handle_unregistered e st :
  is_connection e = false -> registered (sender e) (listeners st) = [] ->
  handle e st = Ok (on_arrival e st).
Proof.
  intros Hc Hreg. destruct e; try discriminate Hc; cbn [handle sender on_arrival] in *;
    by rewrite dispatch_registered, Hreg.
Qed.

Lemma on_connection_second st a b :
  firstPlayerSocket st = Some a -> secondPlayerSocket st = None ->
  firstPlayerSocket (on_connection b st) = Some a /\
  secondPlayerSocket (on_connection b st) = Some b.
Proof.
  destruct st as [first second bd ls es cl]. cbn. intros -> ->. by cbn.
Qed.

(** Before the second player connects nothing listens on the first player's
    socket: no handler runs for its disconnection (or for anything else it
    sends). The state stays as it is, but for the socket being no longer
    connected where the event is a disconnection; the slot stays taken, and
    the next socket to connect starts the game against it. *)
Theorem lone_player_cannot_leave st a b e :
  registry_empty st -> registered a (listeners st) = [] ->
  sender e = a -> is_connection e = false ->
  handle e (on_connection a st) = Ok (on_arrival e (on_connection a st)) /\
  ((forall s, e <> Disconnect s) ->
   handle e (on_connection a st) = Ok (on_connection a st)) /\
  firstPlayerSocket (on_arrival e (on_connection a st)) = Some a /\
  run [Connection a; e; Connection b] st
    = Ok (on_connection b (on_arrival e (on_connection a st))) /\
  firstPlayerSocket (on_connection b (on_arrival e (on_connection a st))) = Some a /\
  secondPlayerSocket (on_connection b (on_arrival e (on_connection a st))) = Some b.
Proof.
  intros Hempty Hreg Hs Hc.
  destruct (on_connection_pair st a b Hempty) as [H1 _].
  assert (Hdrop : handle e (on_connection a st) = Ok (on_arrival e (on_connection a st))).
  { apply handle_unregistered; [done |]. by rewrite Hs, H1. }
  destruct (on_arrival_fields e (on_connection a st)) as (A1 & A2 & _).
  assert (F1 : firstPlayerSocket (on_arrival e (on_connection a st)) = Some a)
    by (by rewrite A1, H1).
  assert (F2 : secondPlayerSocket (on_arrival e (on_connection a st)) = None).
  { rewrite A2, H1. by destruct Hempty. }
  refine (conj Hdrop (conj _ (conj F1 (conj _ _)))).
  - intros He. rewrite Hdrop. destruct e; try done. by destruct (He s).
  - cbn [run handle]. by rewrite Hdrop.
  - by apply on_connection_second.
Qed.

Lemma lone_player_cannot_leave_witness :
  handle (Disconnect 1) (on_connection 1 init)
    = Ok (on_arrival (Disconnect 1) (on_connection 1 init)) /\
  ((forall s, Disconnect 1 <> Disconnect s) ->
   handle (Disconnect 1) (on_connection 1 init) = Ok (on_connection 1 init)) /\
  firstPlayerSocket (on_arrival (Disconnect 1) (on_connection 1 init)) = Some 1%nat /\
  run [Connection 1; Disconnect 1; Connection 2] init
    = Ok (on_connection 2 (on_arrival (Disconnect 1) (on_connection 1 init))) /\
  firstPlayerSocket (on_connection 2 (on_arrival (Disconnect 1) (on_connection 1 init)))
    = Some 1%nat /\
  secondPlayerSocket (on_connection 2 (on_arrival (Disconnect 1) (on_connection 1 init)))
    = Some 2%nat.
Proof.
  apply (lone_player_cannot_leave init 1%nat 2%nat (Disconnect 1));
    [by split | reflexivity | reflexivity | reflexivity].
Defined.

(** ** A move that does not end the game *)

(** After an accepted move that leaves the game open the turn passes: the
    cell holds the mover's symbol, both players are sent the board, the
    other player alone is granted the turn, and the game goes on. *)
Theorem turn_passes_after_an_accepted_move st a b sym input i :
  started a b st -> sym <> Dot ->
  in_bounds (board st) input -> array_index (js_pred input) = Some i ->
  board st !! i = Some Dot ->
  game_over_on (<[i := sym]> (board st)) = false ->
  exists st',
    handle (TurnTaken (player a b sym) input) st = Ok st' /\
    board st' = <[i := sym]> (board st) /\
    response st st' =
      [Emit a "board_update" (PBoard (<[i := sym]> (board st)));
       Emit b "board_update" (PBoard (<[i := sym]> (board st)));
       Emit (player a b (opponent sym)) "turn" PNull;
       Next (player a b sym)] /\
    turn_holder st' = Some (player a b (opponent sym)) /\
    started a b st'.
Proof.
  intros Hst Hsym Hin Hi Hdot Hopen.
  rewrite handle_turn_taken_started by done.
  rewrite (on_turn_taken_accepted _ _ _ i) by done.
  rewrite (accept_move_goes_on _ _ _ _ (player a b (opponent sym)))
    by (done || by apply next_player_started).
  eexists. split; [reflexivity |].
  destruct (written_fields sym i st) as (_ & _ & Hbd & _).
  pose proof Hst as (Ha & Hb & _).
  assert (Hsent : sent (log (Next (player a b sym))
                          (emit (player a b (opponent sym)) "turn" PNull
                                (written sym i st))) =
                  sent st ++
                  [Emit a "board_update" (PBoard (<[i := sym]> (board st)));
                   Emit b "board_update" (PBoard (<[i := sym]> (board st)));
                   Emit (player a b (opponent sym)) "turn" PNull;
                   Next (player a b sym)]).
  { cbn [log emit sent]. rewrite written_sent, Ha, Hb. cbn [app].
    by rewrite <- !app_assoc. }
  refine (conj Hbd (conj (response_app _ _ _ Hsent) (conj _ _))).
  - unfold turn_holder. rewrite Hsent, turn_holder_from_app. reflexivity.
  - by apply started_turn_passed.
Qed.

Lemma turn_passes_after_an_accepted_move_witness :
  let st := session 1 2 [X; Dot; Dot; Dot; Dot; Dot; Dot; Dot; Dot] in
  let bd := [X; Dot; Dot; Dot; O; Dot; Dot; Dot; Dot] in
  exists st',
    handle (TurnTaken 2 (typed 5)) st = Ok st' /\
    board st' = bd /\
    response st st' =
      [Emit 1%nat "board_update" (PBoard bd); Emit 2%nat "board_update" (PBoard bd);
       Emit 1%nat "turn" PNull; Next 2%nat] /\
    turn_holder st' = Some 1%nat /\
    started 1 2 st'.
Proof.
  intros st bd.
  apply (turn_passes_after_an_accepted_move st 1%nat 2%nat O (typed 5) 4%nat);
    [by repeat split | discriminate | by repeat split | reflexivity | reflexivity
    | reflexivity].
Defined.

(** ** The winner is the player who moved *)

(** When a move onto a board without a complete line completes one, the
    line is of the mover's symbol and the mover is declared the winner,
    however often the handlers are registered: after the board, both
    players are sent "won by ... player" with the mover's ordinal, and the
    registry is reset. What follows in the trace comes from [cleanUp] (its
    calls of [disconnect] and the [game_over] of the listeners these run),
    then the acknowledgement. With the handlers registered once the handler
    returns and the board is the empty one. *)
Theorem the_player_who_completes_a_line_wins st a b sym input i l m :
  in_progress a b st -> sym <> Dot ->
  Forall (incomplete (board st)) lines ->
  in_bounds (board st) input -> array_index (js_pred input) = Some i ->
  board st !! i = Some Dot ->
  l ∈ lines -> m <> Dot -> line_full (<[i := sym]> (board st)) m l ->
  let text := "won by " +:+ ordinal sym +:+ " player" in
  let st' := final (handle (TurnTaken (player a b sym) input) st) in
  m = sym /\
  registry_empty st' /\
  (exists tr,
      response st st' =
        [Emit a "board_update" (PBoard (<[i := sym]> (board st)));
         Emit b "board_update" (PBoard (<[i := sym]> (board st)));
         Emit a "game_over" (PStr text); Emit b "game_over" (PStr text)] ++
        tr ++ [Next (player a b sym)] /\
      Forall (hang_up_entry st) tr) /\
  (started a b st ->
   handle (TurnTaken (player a b sym) input) st = Ok st' /\ board st' = empty_board).
Proof.
  intros Hst Hsym Hinc Hin Hi Hdot Hl Hm Hfull text st'.
  split; [by destruct (complete_line_is_the_movers _ _ _ _ _ Hinc Hdot Hl Hm Hfull) |].
  pose proof (first_decisive_mover _ _ _ _ _ Hinc Hdot Hl Hm Hfull) as Hfirst.
  assert (Hover : game_over_on (<[i := sym]> (board st)) = true)
    by (unfold game_over_on; by rewrite Hfirst).
  assert (Htext : outcome_text (<[i := sym]> (board st)) = text)
    by (unfold outcome_text; by rewrite Hfirst).
  destruct (move_ends_the_game a b sym input i st Hst Hsym Hin Hi Hdot Hover)
    as (F1 & F2 & _ & (tr & Hsent & Htr) & Honce & _).
  rewrite Htext in Hsent. fold st' in F1, F2, Hsent, Honce.
  split; [by split |]. split.
  - exists tr. split; [| done]. by apply response_app.
  - intros (_ & _ & _ & Hra & Hrb). apply Honce. by destruct sym.
Qed.

Lemma the_player_who_completes_a_line_wins_witness :
  let st := session 1 2 [X; O; Dot; X; O; Dot; Dot; Dot; Dot] in
  let bd := [X; O; Dot; X; O; Dot; X; Dot; Dot] in
  let st' := final (handle (TurnTaken 1 (typed 7)) st) in
  X = X /\
  registry_empty st' /\
  (exists tr,
      response st st' =
        [Emit 1%nat "board_update" (PBoard bd); Emit 2%nat "board_update" (PBoard bd);
         Emit 1%nat "game_over" (PStr "won by first player");
         Emit 2%nat "game_over" (PStr "won by first player")] ++
        tr ++ [Next 1%nat] /\
      Forall (hang_up_entry st) tr) /\
  (started 1 2 st -> handle (TurnTaken 1 (typed 7)) st = Ok st' /\ board st' = empty_board).
Proof.
  intros st bd st'.
  apply (the_player_who_completes_a_line_wins st 1%nat 2%nat X (typed 7) 6%nat
           [0; 3; 6]%nat X).
  - unfold in_progress. cbn. repeat split; try done; by repeat constructor.
  - discriminate.
  - apply (bool_decide_unpack _). vm_compute. reflexivity.
  - by repeat split.
  - reflexivity.
  - reflexivity.
  - unfold lines. repeat constructor.
  - discriminate.
  - by repeat constructor.
Defined.

(** ** What a move can be *)

Lemma accepted_position bd input i :
  length bd = 9%nat -> in_bounds bd input -> array_index (js_pred input) = Some i ->
  exists q, input = Finite q /\ (q == inject_Z (Z.of_nat i + 1))%Q /\ (i < 9)%nat.
Proof.
  intros Hlen (_ & _ & Hge) Hi. rewrite Hlen in Hge.
  destruct input as [| negative | q]; [done | done |]. cbn [js_pred] in *.
  apply array_index_finite in Hi. exists q. split; [done |].
  split.
  - rewrite inject_Z_plus, <- Hi. unfold Qminus. ring.
  - apply not_true_iff_false in Hge. rewrite js_ge_finite, Hi in Hge.
    rewrite <- Zle_Qle in Hge. lia.
Qed.

(** On a board of nine cells every submission is either rejected, the
    board and the registry staying as they are, or it is a whole number
    from 1 to 9 that names an empty cell: the handler writes on no other
    input. *)
Theorem only_one_to_nine_on_an_empty_cell_is_accepted st s sym input :
  length (board st) = 9%nat ->
  (exists msg,
      rejection (board st) input msg /\
      on_turn_taken s sym input st = Ok (rejected s msg st) /\
      board (rejected s msg st) = board st) \/
  (exists q n,
      input = Finite q /\ (q == inject_Z n)%Q /\ (1 <= n <= 9)%Z /\
      board st !! Z.to_nat (n - 1) = Some Dot /\
      on_turn_taken s sym input st = accept_move s sym (Z.to_nat (n - 1)) st).
Proof.
  intros Hlen.
  destruct (on_turn_taken_cases s sym input st)
    as [(msg & Hrej & H) | (i & Hin & Hi & Hdot & H)].
  - left. by exists msg.
  - right. destruct (accepted_position _ _ _ Hlen Hin Hi) as (q & -> & Hq & Hlt).
    exists q, (Z.of_nat i + 1)%Z.
    replace (Z.to_nat (Z.of_nat i + 1 - 1)) with i by lia.
    repeat split; try done; lia.
Qed.

Lemma only_one_to_nine_on_an_empty_cell_is_accepted_witness :
  let st := session 1 2 empty_board in
  (exists msg,
      rejection (board st) (Finite (19 # 2)) msg /\
      on_turn_taken 1 X (Finite (19 # 2)) st = Ok (rejected 1 msg st) /\
      board (rejected 1 msg st) = board st) \/
  (exists q n,
      Finite (19 # 2) = Finite q /\ (q == inject_Z n)%Q /\ (1 <= n <= 9)%Z /\
      board st !! Z.to_nat (n - 1) = Some Dot /\
      on_turn_taken 1 X (Finite (19 # 2)) st = accept_move 1 X (Z.to_nat (n - 1)) st).
Proof.
  intros st.
  apply (only_one_to_nine_on_an_empty_cell_is_accepted st 1%nat X (Finite (19 # 2))).
  reflexivity.
Defined.

(** ** [checkForGameOver] and [cleanUp] *)

Lemma complete_line_decides bd :
  (exists who, first_decisive (line_sums bd) = Some who) <->
  exists l m, l ∈ lines /\ m <> Dot /\ line_full bd m l.
Proof.
  rewrite line_sums_lines.
  assert (Hlines : Forall (fun l => l ∈ lines) lines) by (by apply Forall_forall).
  pose proof (first_decisive_lines bd lines Hlines) as Hfirst.
  destruct (first_decisive (map (line_sum bd) lines)) as [who|].
  - destruct Hfirst as (pre & l & post & m & Hsplit & _ & Hm & Hfull & _).
    split; [| by exists who]. intros _. exists l, m. split; [| done].
    rewrite Hsplit. apply elem_of_app. right. apply list_elem_of_here.
  - split; [by intros [who ?] |]. intros (l & m & Hl & Hm & Hfull). exfalso.
    rewrite Forall_forall in Hfirst. destruct (Hfirst l Hl) as [HX HO].
    destruct m; done.
Qed.

(** [checkForGameOver] answers [true] exactly when a line is complete or no
    cell is empty. When it answers [false] it has done nothing: the state
    and the trace are untouched. When it answers [true] it has first sent
    [game_over] with the outcome to the players in the two variables and
    then run [cleanUp]: both variables are cleared, the board is reset and
    the handlers stay registered; what [cleanUp] adds to the trace are its
    calls of [disconnect] and the [game_over] of the ['disconnect']
    listeners these calls run. *)
Theorem checkForGameOver_outcomes st :
  let over := fst (checkForGameOver st) in
  let st' := snd (checkForGameOver st) in
  (over = true <->
   (exists l m, l ∈ lines /\ m <> Dot /\ line_full (board st) m l) \/
   Dot ∉ board st) /\
  (over = false -> st' = st) /\
  (over = true ->
   registry_empty st' /\ board st' = empty_board /\
   listeners st' = listeners st /\
   exists tr,
     response st st' =
       to_players st "game_over" (PStr (outcome_text (board st))) ++ tr /\
     Forall (hang_up_entry st) tr).
Proof.
  cbv zeta. rewrite checkForGameOver_eq.
  pose proof (complete_line_decides (board st)) as Hline.
  pose proof (existsb_is_dot (board st)) as Hdot.
  assert (Hann : forall text,
             registry_empty (announce text st) /\
             board (announce text st) = empty_board /\
             listeners (announce text st) = listeners st /\
             exists tr,
               response st (announce text st) =
                 to_players st "game_over" (PStr text) ++ tr /\
               Forall (hang_up_entry st) tr).
  { intros text. destruct (announce_fields text st) as (F1 & F2 & F3 & F4).
    refine (conj (conj F1 F2) (conj F3 (conj F4 _))).
    destruct (announce_sent text st) as (tr & E & Htr).
    exists tr. split; [by apply response_app | done]. }
  unfold outcome_text.
  destruct (first_decisive (line_sums (board st))) as [who|]; cbn [fst snd].
  - split; [| split; [done |]].
    + split; [| done]. intros _. left. apply Hline. by exists who.
    + intros _. rewrite announceWinner_announce. apply Hann.
  - assert (Hno : ~ exists l m, l ∈ lines /\ m <> Dot /\ line_full (board st) m l).
    { intros H. apply Hline in H as [who H]. discriminate H. }
    destruct (existsb is_dot (board st)); cbn [fst snd].
    + split; [| split; [done | done]].
      split; [done |]. intros [H | H]; [done |]. exfalso. apply H. by apply Hdot.
    + split; [| split; [done |]].
      * split; [| done]. intros _. right. intros H. apply Hdot in H. discriminate H.
      * intros _. rewrite announceTie_announce. apply Hann.
Qed.

(** ** Between two events the game is undecided *)

(** A property of the state kept by every run of a handler, and by the end
    of a connection, is kept by the handling of every event, and by every
    sequence of events. *)
Lemma run_handlers_keeps (P : state -> Prop) handler syms :
  (forall sym st, P st -> P (final (handler sym st))) ->
  forall st, P st -> P (final (run_handlers handler syms st)).
Proof.
  intros Hh. induction syms as [|sym syms IH]; intros st HP; [done |].
  cbn [run_handlers]. specialize (Hh sym st HP).
  destruct (handler sym st); [by apply IH | done].
Qed.

Lemma handle_keeps (P : state -> Prop) :
  (forall op st, P st -> P (final (run_operation op st))) ->
  (forall s st, P st -> P (close s st)) ->
  forall e st, P st -> P (final (handle e st)).
Proof.
  intros Hop Hclose e st HP. specialize (Hclose (sender e) st HP).
  destruct e as [s | s | s | s input | s err]; cbn [handle];
    rewrite ?dispatch_registered.
  - by apply (Hop (OnConnection s)).
  - apply run_handlers_keeps; [| done]. intros sym st'. apply (Hop (OnDisconnect s sym)).
  - apply run_handlers_keeps; [| done]. intros sym st'. apply (Hop (OnResign s sym)).
  - apply run_handlers_keeps; [| done].
    intros sym st'. apply (Hop (OnTurnTaken s sym input)).
  - apply run_handlers_keeps; [| done].
    intros sym st'. apply (Hop (OnTurnError s sym err)).
Qed.

Lemma run_keeps (P : state -> Prop) :
  (forall op st, P st -> P (final (run_operation op st))) ->
  (forall s st, P st -> P (close s st)) ->
  forall events st, P st -> P (final (run events st)).
Proof.
  intros Hop Hclose. induction events as [|e events IH]; intros st HP; [done |].
  cbn [run]. pose proof (handle_keeps P Hop Hclose e st HP) as He.
  destruct (handle e st); [by apply IH | done].
Qed.

(** Whatever events the server has handled, the board it holds afterwards
    is an undecided one: no line on it is complete and at least one cell is
    empty. A decided board never outlives the handler that produced it. *)
Theorem board_between_events_is_undecided events :
  undecided (board (final (run events init))).
Proof.
  apply (run_keeps (fun st => undecided (board st))).
  - intros op st Hst.
    destruct (run_operation_board_open op st) as [-> | [-> | H]].
    + done.
    + apply undecided_empty_board.
    + by apply undecided_game_over_on.
  - done.
  - apply undecided_empty_board.
Qed.

(** ** How long a game can last *)

Lemma empty_cells_insert bd i sym :
  bd !! i = Some Dot -> sym <> Dot ->
  S (empty_cells (<[i := sym]> bd)) = empty_cells bd.
Proof.
  unfold empty_cells. revert i. induction bd as [|c bd IH]; intros i Hi Hsym; [done |].
  destruct i as [|i]; cbn in Hi |- *.
  - injection Hi as ->. by destruct sym.
  - destruct c; cbn; by rewrite <- (IH i).
Qed.

Lemma empty_cells_pos bd : existsb is_dot bd = true -> (0 < empty_cells bd)%nat.
Proof.
  unfold empty_cells. induction bd as [|c bd IH]; [done |].
  destruct c; cbn; intros H; auto; lia.
Qed.

Lemma accept_move_over_fields s sym i st :
  game_over_on (<[i := sym]> (board st)) = true ->
  exists st', accept_move s sym i st = Ok st' /\
              registry_empty st' /\ board st' = empty_board.
Proof.
  intros Hover. rewrite accept_move_over by done. eexists. split; [reflexivity |].
  destruct (announce_fields (outcome_text (<[i := sym]> (board st)))
              (written sym i st)) as (F1 & F2 & F3 & _).
  by repeat split.
Qed.

(** A game whose handlers are registered once (no connection was attempted
    while it ran) cannot outlast its empty cells: when the players submit,
    in turn, as many valid moves as the board has empty cells, the game is
    over by the end of some first part of them, with the registry empty and
    the board reset; from the start of a game that is within nine moves. *)
Theorem game_is_over_when_the_board_is_full a b moves :
  forall sym st,
    started a b st -> sym <> Dot -> moves <> [] ->
    valid_moves (board st) sym moves ->
    length moves = empty_cells (board st) ->
    exists played rest st',
      moves = played ++ rest /\ played <> [] /\
      play a b sym played st = Ok st' /\
      registry_empty st' /\ board st' = empty_board.
Proof.
  induction moves as [|input moves IH]; intros sym st Hst Hsym Hne Hvalid Hlen; [done |].
  cbn [valid_moves] in Hvalid. destruct Hvalid as (i & Hin & Hi & Hdot & Hrest).
  pose proof (empty_cells_insert _ _ _ Hdot Hsym) as Hcells.
  cbn [length] in Hlen.
  assert (Hstep : handle (TurnTaken (player a b sym) input) st = accept_move (player a b sym) sym i st).
  { rewrite handle_turn_taken_started by done. by apply on_turn_taken_accepted. }
  destruct (game_over_on (<[i := sym]> (board st))) eqn:Hover.
  - destruct (accept_move_over_fields (player a b sym) sym i st Hover)
      as (st' & Hacc & Hempty & Hbd).
    exists [input], moves, st'.
    refine (conj eq_refl (conj _ (conj _ (conj Hempty Hbd)))); [done |].
    cbn [play]. by rewrite Hstep, Hacc.
  - pose proof (game_over_on_false _ Hover) as [_ Hdots].
    apply empty_cells_pos in Hdots.
    assert (Hmoves : moves <> []) by (destruct moves; [cbn in Hlen; lia | done]).
    set (st1 := log (Next (player a b sym))
                  (emit (player a b (opponent sym)) "turn" PNull (written sym i st))).
    assert (Hst1 : started a b st1) by (by apply started_turn_passed).
    assert (Hbd1 : board st1 = <[i := sym]> (board st)).
    { subst st1. cbn [log emit board]. apply written_fields. }
    destruct (IH (opponent sym) st1 Hst1) as (played & rest & st' & -> & Hp & Hplay & Hend).
    + by apply opponent_marked.
    + done.
    + by rewrite Hbd1.
    + rewrite Hbd1. lia.
    + exists (input :: played), rest, st'.
      refine (conj eq_refl (conj _ (conj _ Hend))); [done |].
      cbn [play]. rewrite Hstep.
      by rewrite (accept_move_goes_on _ _ _ _ (player a b (opponent sym)))
        by (done || by apply next_player_started).
Qed.

Lemma game_is_over_when_the_board_is_full_witness :
  let moves := map typed [5; 1; 9; 3; 2; 8; 7; 4; 6]%Z in
  exists played rest st',
    moves = played ++ rest /\ played <> [] /\
    play 1 2 X played (session 1 2 empty_board) = Ok st' /\
    registry_empty st' /\ board st' = empty_board.
Proof.
  intros moves.
  apply (game_is_over_when_the_board_is_full 1%nat 2%nat moves X (session 1 2 empty_board)).
  - by repeat split.
  - discriminate.
  - discriminate.
  - cbn [moves map valid_moves].
    repeat (eexists; split; [repeat split | split; [reflexivity | split; [reflexivity |]]]).
    exact I.
  - reflexivity.
Defined.

(** ** After the game *)

Lemma leave_handler_fields e s sym st :
  exists st' console tr,
    leave_handler e s sym st = Ok st' /\
    registry_empty st' /\ board st' = empty_board /\
    listeners st' = listeners st /\
    sent st' = sent st ++ console ++ to_players st "game_over"
                 (PStr match e with
                       | Resign _ => "won by " +:+ otherPlayerOrdinal sym
                                     +:+ " player due to resignation"
                       | _ => "won by " +:+ otherPlayerOrdinal sym +:+ " player since "
                              +:+ (if String.eqb (otherPlayerOrdinal sym) "first"
                                   then "second" else "first")
                              +:+ " player disconnected"
                       end)
               ++ tr /\
    wire console = [] /\ Forall (hang_up_entry st) tr.
Proof.
  assert (Hann : forall text st0 console,
             firstPlayerSocket st0 = firstPlayerSocket st ->
             secondPlayerSocket st0 = secondPlayerSocket st ->
             listeners st0 = listeners st ->
             sent st0 = sent st ++ console ->
             exists tr,
               registry_empty (announce text st0) /\
               board (announce text st0) = empty_board /\
               listeners (announce text st0) = listeners st /\
               sent (announce text st0) =
                 sent st ++ console ++ to_players st "game_over" (PStr text) ++ tr /\
               Forall (hang_up_entry st) tr).
  { intros text st0 console H1 H2 H3 H4.
    destruct (announce_fields text st0) as (F1 & F2 & F3 & F4).
    destruct (announce_sent text st0) as (tr & E & Htr).
    exists tr. refine (conj (conj F1 F2) (conj F3 (conj _ (conj _ _)))).
    - by rewrite F4.
    - rewrite E, H4. unfold to_players. rewrite H1, H2. by rewrite <- !app_assoc.
    - eapply Forall_impl; [exact Htr |]. intros e0. by apply hang_up_entry_same. }
  destruct e as [s' | s' | s' | s' input | s' err]; cbn [leave_handler];
    unfold on_disconnect, on_resign, on_turn_error.
  1, 2, 4: rewrite announceWinnerByDisconnection_announce;
    destruct (Hann (("won by " +:+ otherPlayerOrdinal sym +:+ " player since "
                     +:+ (if String.eqb (otherPlayerOrdinal sym) "first"
                          then "second" else "first")
                     +:+ " player disconnected")) st [] eq_refl eq_refl eq_refl
                (eq_sym (app_nil_r _))) as (tr & G1 & G2 & G3 & G4 & G5);
    eexists _, [], tr; by rewrite G4.
  - rewrite announceWinnerByResignation_announce.
    destruct (Hann ("won by " +:+ otherPlayerOrdinal sym +:+ " player due to resignation")
                st [] eq_refl eq_refl eq_refl (eq_sym (app_nil_r _)))
      as (tr & G1 & G2 & G3 & G4 & G5).
    eexists _, [], tr. by rewrite G4.
  - rewrite announceWinnerByDisconnection_announce.
    match goal with
    | |- context [announce ?text ?st0] =>
        destruct (Hann text st0 _ eq_refl eq_refl eq_refl eq_refl)
          as (tr & G1 & G2 & G3 & G4 & G5)
    end.
    eexists _, [_], tr. by rewrite G4.
Qed.

Lemma to_players_empty st event data :
  registry_empty st -> to_players st event data = [].
Proof. intros [H1 H2]. unfold to_players. by rewrite H1, H2. Qed.

Lemma run_leave_handlers_on_empty e s syms :
  forall st,
    registry_empty st ->
    exists st' console,
      run_handlers (leave_handler e s) syms st = Ok st' /\
      registry_empty st' /\ listeners st' = listeners st /\
      (board st = empty_board -> board st' = empty_board) /\
      sent st' = sent st ++ console /\ wire console = [].
Proof.
  induction syms as [|sym syms IH]; intros st Hempty.
  - exists st, []. by rewrite app_nil_r.
  - cbn [run_handlers].
    destruct (leave_handler_fields e s sym st)
      as (st1 & console & tr & -> & Hempty1 & Hbd1 & Hls1 & Hsent1 & Hwire1 & Htr).
    rewrite (to_players_empty st _ _ Hempty) in Hsent1.
    assert (tr = []) as -> by (destruct Hempty; by apply (hang_up_empty st)).
    rewrite !app_nil_r in Hsent1.
    destruct (IH st1 Hempty1) as (st' & console' & -> & Hempty' & Hls' & Hbd' & Hsent' & Hwire').
    exists st', (console ++ console').
    refine (conj eq_refl (conj Hempty' (conj _ (conj _ (conj _ _))))).
    + by rewrite Hls'.
    + intros _. by apply Hbd'.
    + by rewrite Hsent', Hsent1, <- app_assoc.
    + by rewrite wire_app, Hwire1, Hwire'.
Qed.

(** Once the registry is empty, a disconnection, a resignation or an input
    error that still arrives on some socket reaches nobody: whatever
    handlers are registered on it, nothing goes out, and the registry
    stays empty. *)
Theorem leaving_an_empty_registry_is_silent st s e :
  registry_empty st -> leaves s e ->
  exists st',
    handle e st = Ok st' /\
    wire (response st st') = [] /\
    registry_empty st' /\ listeners st' = listeners st /\
    (board st = empty_board -> board st' = empty_board).
Proof.
  intros Hempty Hleaves. rewrite (handle_leaves _ _ _ Hleaves).
  destruct (on_arrival_fields e st) as (A1 & A2 & A3 & A4 & A5).
  assert (Hempty0 : registry_empty (on_arrival e st)).
  { destruct Hempty. split; congruence. }
  destruct (run_leave_handlers_on_empty e s (registered s (listeners st))
              (on_arrival e st) Hempty0)
    as (st' & console & -> & Hempty' & Hls & Hbd & Hsent & Hwire).
  rewrite A5 in Hsent.
  exists st'. refine (conj eq_refl (conj _ (conj Hempty' (conj _ _)))).
  - by rewrite (response_app _ _ _ Hsent).
  - congruence.
  - intros H. apply Hbd. congruence.
Qed.

Lemma leaving_an_empty_registry_is_silent_witness :
  let st := final (run [Connection 1; Connection 2; Resign 2] init) in
  exists st',
    handle (TurnError 1 "closed") st = Ok st' /\
    wire (response st st') = [] /\
    registry_empty st' /\ listeners st' = listeners st /\
    (board st = empty_board -> board st' = empty_board).
Proof.
  intros st.
  apply (leaving_an_empty_registry_is_silent st 1%nat (TurnError 1 "closed"));
    [by split | apply leaves_turn_error].
Defined.

Lemma run_leave_handlers_fields e s syms :
  syms <> [] ->
  forall st,
    exists st',
      run_handlers (leave_handler e s) syms st = Ok st' /\
      registry_empty st' /\ board st' = empty_board /\
      listeners st' = listeners st.
Proof.
  destruct syms as [|sym syms]; [done |]. intros _ st. cbn [run_handlers].
  destruct (leave_handler_fields e s sym st)
    as (st1 & console & tr & -> & Hempty1 & Hbd1 & Hls1 & _).
  destruct (run_leave_handlers_on_empty e s syms st1 Hempty1)
    as (st' & console' & -> & Hempty' & Hls' & Hbd' & _).
  exists st'. refine (conj eq_refl (conj Hempty' (conj (Hbd' Hbd1) _))).
  by rewrite Hls'.
Qed.

(** After a player has left a running game the server is ready for the
    next pair: the next two sockets to connect, new to the server, are
    seated as first and second on an empty board, with their handlers
    registered once, and the first of them is granted the turn. *)
Theorem new_game_after_a_player_left st a b sym e c d :
  in_progress a b st -> sym <> Dot -> leaves (player a b sym) e ->
  registered c (listeners st) = [] -> registered d (listeners st) = [] ->
  c <> d ->
  exists st',
    run [e; Connection c; Connection d] st = Ok st' /\
    started c d st' /\ board st' = empty_board /\
    turn_holder st' = Some c.
Proof.
  intros (Ha & Hb & Hlen & Hra & _ & Hrb & _) Hsym Hleaves Hc Hd Hcd.
  cbn [run]. rewrite (handle_leaves _ _ _ Hleaves).
  destruct (run_leave_handlers_fields e (player a b sym)
              (registered (player a b sym) (listeners st))
              ltac:(by destruct sym) (on_arrival e st))
    as (st1 & -> & Hempty1 & Hbd1 & Hls1).
  destruct (on_arrival_fields e st) as (_ & _ & _ & A4 & _). rewrite A4 in Hls1.
  cbn [handle]. eexists. split; [reflexivity |].
  rewrite <- Hls1 in Hc, Hd.
  assert (Hlen1 : length (board st1) = 9%nat) by (by rewrite Hbd1).
  refine (conj (started_pair st1 c d Hempty1 Hlen1 Hc Hd Hcd) _).
  destruct (on_connection_pair st1 c d Hempty1) as [_ ->].
  split; [exact Hbd1 |].
  unfold turn_holder. cbn [sent]. by rewrite turn_holder_from_app.
Qed.

Lemma new_game_after_a_player_left_witness :
  let st := final (run [Connection 1; Connection 2; TurnTaken 1 (typed 5)] init) in
  exists st',
    run [Disconnect 2; Connection 3; Connection 4] st = Ok st' /\
    started 3 4 st' /\ board st' = empty_board /\
    turn_holder st' = Some 3%nat.
Proof.
  intros st.
  apply (new_game_after_a_player_left st 1%nat 2%nat O (Disconnect 2) 3%nat 4%nat).
  - unfold in_progress. cbn. repeat split; try discriminate; repeat constructor.
  - discriminate.
  - apply leaves_disconnect.
  - reflexivity.
  - reflexivity.
  - discriminate.
Defined.

(** ** Handlers registered twice *)

(** When the handlers of the mover are registered twice (as they are after
    a connection was attempted during the game), a move that leaves the game
    open is handled twice: the first run writes the cell and passes the
    turn, the second finds the cell occupied and prompts the mover again.
    Both players have then been granted the turn, the mover last. *)
Theorem move_handled_twice_prompts_the_mover_again st a b sym input i :
  firstPlayerSocket st = Some a -> secondPlayerSocket st = Some b ->
  registered (player a b sym) (listeners st) = [sym; sym] -> sym <> Dot ->
  in_bounds (board st) input -> array_index (js_pred input) = Some i ->
  board st !! i = Some Dot ->
  game_over_on (<[i := sym]> (board st)) = false ->
  exists st',
    handle (TurnTaken (player a b sym) input) st = Ok st' /\
    board st' = <[i := sym]> (board st) /\
    response st st' =
      [Emit a "board_update" (PBoard (<[i := sym]> (board st)));
       Emit b "board_update" (PBoard (<[i := sym]> (board st)));
       Emit (player a b (opponent sym)) "turn" PNull;
       Next (player a b sym);
       Emit (player a b sym) "turn" (PStr msg_occupied);
       Next (player a b sym)] /\
    turn_holder st' = Some (player a b sym).
Proof.
  intros Ha Hb Hreg Hsym Hin Hi Hdot Hopen.
  cbn [handle]. rewrite dispatch_registered, Hreg. cbn [run_handlers].
  rewrite (on_turn_taken_accepted _ _ _ i) by done.
  rewrite (accept_move_goes_on _ _ _ _ (player a b (opponent sym)))
    by (done || by apply next_player_seated).
  set (st1 := log _ _).
  destruct (written_fields sym i st) as (_ & _ & Hbd & _).
  assert (Hbd1 : board st1 = <[i := sym]> (board st)) by done.
  assert (Hsent1 : sent st1 =
            sent st ++
            [Emit a "board_update" (PBoard (<[i := sym]> (board st)));
             Emit b "board_update" (PBoard (<[i := sym]> (board st)));
             Emit (player a b (opponent sym)) "turn" PNull;
             Next (player a b sym)]).
  { subst st1. cbn [log emit sent]. rewrite written_sent, Ha, Hb. cbn [app].
    by rewrite <- !app_assoc. }
  rewrite (on_turn_taken_occupied _ _ _ i).
  - eexists. split; [reflexivity |].
    assert (Hsent : sent (rejected (player a b sym) msg_occupied st1) =
              sent st ++
              [Emit a "board_update" (PBoard (<[i := sym]> (board st)));
               Emit b "board_update" (PBoard (<[i := sym]> (board st)));
               Emit (player a b (opponent sym)) "turn" PNull;
               Next (player a b sym);
               Emit (player a b sym) "turn" (PStr msg_occupied);
               Next (player a b sym)]).
    { rewrite rejected_sent, Hsent1. by rewrite <- app_assoc. }
    refine (conj Hbd1 (conj (response_app _ _ _ Hsent) _)).
    unfold turn_holder. rewrite Hsent, turn_holder_from_app. reflexivity.
  - apply (in_bounds_length (board st)); [| done]. by rewrite Hbd1, length_insert.
  - done.
  - rewrite Hbd1. apply lookup_lt_Some in Hdot.
    rewrite list_lookup_insert_eq by done. congruence.
Qed.

Lemma move_handled_twice_prompts_the_mover_again_witness :
  let st := final (run [Connection 1; Connection 2; Connection 3] init) in
  let bd := [Dot; Dot; Dot; Dot; X; Dot; Dot; Dot; Dot] in
  exists st',
    handle (TurnTaken 1 (typed 5)) st = Ok st' /\
    board st' = bd /\
    response st st' =
      [Emit 1%nat "board_update" (PBoard bd); Emit 2%nat "board_update" (PBoard bd);
       Emit 2%nat "turn" PNull; Next 1%nat;
       Emit 1%nat "turn" (PStr msg_occupied); Next 1%nat] /\
    turn_holder st' = Some 1%nat.
Proof.
  intros st bd.
  apply (move_handled_twice_prompts_the_mover_again st 1%nat 2%nat X (typed 5) 4%nat);
    [reflexivity | reflexivity | reflexivity | discriminate | by repeat split
    | reflexivity | reflexivity | reflexivity].
Defined.

(** With the handlers registered twice, the move that ends the game brings
    the handler down: the first run announces the outcome and resets the
    registry through [cleanUp] (whose calls of [disconnect], with the
    [game_over] of the listeners they run, follow the announcement in the
    trace); the second run finds the cell empty on the fresh board, writes
    it, and calls [emit] on the emptied slot of the other player, which
    throws. The server is left with one mark on the board and no player. *)
Theorem game_ending_move_handled_twice_throws st a b sym input i :
  firstPlayerSocket st = Some a -> secondPlayerSocket st = Some b ->
  length (board st) = 9%nat ->
  registered (player a b sym) (listeners st) = [sym; sym] ->
  in_bounds (board st) input -> array_index (js_pred input) = Some i ->
  board st !! i = Some Dot ->
  game_over_on (<[i := sym]> (board st)) = true ->
  exists st' tr,
    handle (TurnTaken (player a b sym) input) st = Throw "TypeError" st' /\
    board st' = <[i := sym]> empty_board /\
    registry_empty st' /\
    response st st' =
      [Emit a "board_update" (PBoard (<[i := sym]> (board st)));
       Emit b "board_update" (PBoard (<[i := sym]> (board st)));
       Emit a "game_over" (PStr (outcome_text (<[i := sym]> (board st))));
       Emit b "game_over" (PStr (outcome_text (<[i := sym]> (board st))))] ++
      tr ++ [Next (player a b sym)] /\
    Forall (hang_up_entry st) tr.
Proof.
  intros Ha Hb Hlen Hreg Hin Hi Hdot Hover.
  cbn [handle]. rewrite dispatch_registered, Hreg. cbn [run_handlers].
  rewrite (on_turn_taken_accepted _ _ _ i) by done.
  destruct (accept_move_over_sent (player a b sym) sym i st Hover) as (tr & Hsent1 & Htr).
  rewrite accept_move_over in * by done. cbn [final] in Hsent1. cbv zeta in Hsent1.
  unfold to_players in Hsent1. rewrite Ha, Hb in Hsent1.
  cbn [app] in Hsent1.
  set (st1 := log _ _) in *.
  destruct (announce_fields (outcome_text (<[i := sym]> (board st))) (written sym i st))
    as (F1 & F2 & F3 & _).
  assert (Hempty1 : registry_empty st1) by (by split).
  assert (Hbd1 : board st1 = empty_board) by done.
  assert (Hi9 : (i < 9)%nat) by (apply lookup_lt_Some in Hdot; lia).
  rewrite (on_turn_taken_accepted _ _ _ i).
  - rewrite accept_move_eq. cbv zeta. rewrite Hbd1.
    pose proof (one_mark_leaves_the_game_open i sym Hi9) as Hopen.
    apply game_over_on_false in Hopen as [-> ->].
    assert (Hnext : next_player sym st1 = None) by (destruct Hempty1, sym; done).
    rewrite Hnext. eexists _, tr. split; [reflexivity |].
    destruct (written_fields sym i st1) as (E1 & E2 & E3 & _).
    refine (conj _ (conj _ (conj _ Htr))).
    + by rewrite E3, Hbd1.
    + destruct Hempty1. split; congruence.
    + apply response_app. rewrite written_sent.
      destruct Hempty1 as [-> ->]. by rewrite Hsent1, !app_nil_r.
  - apply (in_bounds_length (board st)); [| done]. by rewrite Hbd1, Hlen.
  - done.
  - rewrite Hbd1. by apply empty_board_lookup.
Qed.

Lemma game_ending_move_handled_twice_throws_witness :
  let st := final (run [Connection 1; Connection 2; Connection 3;
                        TurnTaken 1 (typed 1); TurnTaken 2 (typed 4);
                        TurnTaken 1 (typed 2); TurnTaken 2 (typed 5)] init) in
  let bd := [X; X; X; O; O; Dot; Dot; Dot; Dot] in
  board st = [X; X; Dot; O; O; Dot; Dot; Dot; Dot] /\
  exists st' tr,
    handle (TurnTaken 1 (typed 3)) st = Throw "TypeError" st' /\
    board st' = [Dot; Dot; X; Dot; Dot; Dot; Dot; Dot; Dot] /\
    registry_empty st' /\
    response st st' =
      [Emit 1%nat "board_update" (PBoard bd); Emit 2%nat "board_update" (PBoard bd);
       Emit 1%nat "game_over" (PStr "won by first player");
       Emit 2%nat "game_over" (PStr "won by first player")] ++
      tr ++ [Next 1%nat] /\
    Forall (hang_up_entry st) tr.
Proof.
  intros st bd. split; [reflexivity |].
  apply (game_ending_move_handled_twice_throws st 1%nat 2%nat X (typed 3) 2%nat);
    [reflexivity | reflexivity | reflexivity | reflexivity | by repeat split
    | reflexivity | reflexivity | reflexivity].
Defined.

(** ** The turn between the loop clients and the server *)

Section Turns.

Variable Number : option string -> number.

Lemma receive_one s act e st :
  to_event Number s act = Some e -> receive Number s [act] st = handle e st.
Proof. intros He. cbn [receive]. rewrite He. by destruct (handle e st). Qed.

Lemma deliver_app es es' flags :
  deliver (es ++ es') flags = deliver es' (deliver es flags).
Proof.
  revert flags. induction es as [|[] es IH]; intros flags; cbn [app deliver]; auto.
Qed.

Lemma deliver_not_granted es flags t :
  Forall (fun e => ~ grants t e) es -> deliver es flags t = flags t.
Proof.
  revert flags. induction es as [|e es IH]; intros flags Hes; [done |].
  apply Forall_cons in Hes as [He Hes].
  destruct e as [to event data | | |]; cbn [deliver]; rewrite IH by done; [| done..].
  destruct (String.eqb_spec event "turn") as [-> |]; [| done].
  unfold set_flag. destruct (decide (t = to)) as [-> |]; [| done].
  exfalso. apply He. by exists data.
Qed.

Lemma command_move s arg0 sys :
  isTurn sys s = true -> arg0 <> Some "r" ->
  command Number s None arg0 sys =
  ([SendTurnTaken arg0],
   handle (TurnTaken s (Number arg0)) (server sys),
   deliver (response (server sys)
              (final (handle (TurnTaken s (Number arg0)) (server sys))))
           (set_flag s false (isTurn sys))).
Proof.
  intros Hturn Harg. unfold command, on_command.
  destruct (decide (arg0 = Some "r")); [done |]. rewrite Hturn.
  by rewrite (receive_one s _ (TurnTaken s (Number arg0))).
Qed.

End Turns.

(** A move entered in turn and accepted hands the turn over: the client
    clears its flag when it sends the move, the server writes the cell and
    grants the turn to the other player, whose client sets its flag. No
    other client's flag changes. *)
Theorem accepted_command_hands_the_turn_over
    (Number : option string -> number) sys a b sym arg0 i :
  started a b (server sys) -> sym <> Dot ->
  isTurn sys (player a b sym) = true -> arg0 <> Some "r" ->
  in_bounds (board (server sys)) (Number arg0) ->
  array_index (js_pred (Number arg0)) = Some i ->
  board (server sys) !! i = Some Dot ->
  game_over_on (<[i := sym]> (board (server sys))) = false ->
  exists st' flags,
    command Number (player a b sym) None arg0 sys = ([SendTurnTaken arg0], Ok st', flags) /\
    board st' = <[i := sym]> (board (server sys)) /\
    flags (player a b sym) = false /\
    flags (player a b (opponent sym)) = true /\
    forall t, t <> a -> t <> b -> flags t = isTurn sys t.
Proof.
  intros Hst Hsym Hturn Harg Hin Hi Hdot Hopen.
  rewrite command_move by done.
  assert (Hab : a <> b).
  { destruct Hst as (_ & _ & _ & Hra & Hrb). intros ->. congruence. }
  rewrite handle_turn_taken_started by done.
  rewrite (on_turn_taken_accepted _ _ _ i) by done.
  rewrite (accept_move_goes_on _ _ _ _ (player a b (opponent sym)))
    by (done || by apply next_player_started).
  eexists _, _. split; [reflexivity |].
  destruct (written_fields sym i (server sys)) as (_ & _ & Hbd & _).
  pose proof Hst as (Ha & Hb & _).
  split; [exact Hbd |].
  cbn [final]. erewrite response_app; cycle 1.
  { cbn [log emit sent]. rewrite written_sent, Ha, Hb. cbn [app].
    rewrite <- !app_assoc. reflexivity. }
  cbn [app deliver String.eqb Ascii.eqb Bool.eqb]. unfold set_flag.
  repeat split.
  - destruct sym; [done | |]; cbn [player opponent];
      repeat (destruct (decide _)); try done; congruence.
  - destruct sym; [done | |]; cbn [player opponent];
      repeat (destruct (decide _)); done.
  - intros t Hta Htb.
    destruct sym; [done | |]; cbn [player opponent];
      repeat (destruct (decide _)); done.
Qed.

Lemma accepted_command_hands_the_turn_over_witness :
  let sys := mkSystem (session 1 2 empty_board) (fun t => Nat.eqb t 1) in
  let Number := fun _ : option string => typed 5 in
  exists st' flags,
    command Number 1%nat None (Some "5") sys = ([SendTurnTaken (Some "5")], Ok st', flags) /\
    board st' = [Dot; Dot; Dot; Dot; X; Dot; Dot; Dot; Dot] /\
    flags 1%nat = false /\ flags 2%nat = true /\
    forall t, t <> 1%nat -> t <> 2%nat -> flags t = isTurn sys t.
Proof.
  intros sys Number.
  apply (accepted_command_hands_the_turn_over Number sys 1%nat 2%nat X (Some "5") 4%nat);
    [by repeat split | discriminate | reflexivity | discriminate | by repeat split
    | reflexivity | reflexivity | reflexivity].
Defined.

(** A move entered in turn and rejected comes back to the sender: the
    client clears its flag when it sends, and the server's prompt sets it
    again; the board and the flags of all clients end as they were. *)
Theorem rejected_command_returns_the_turn
    (Number : option string -> number) sys s arg0 msg :
  isTurn sys s = true -> arg0 <> Some "r" ->
  registered s (listeners (server sys)) <> [] ->
  rejection (board (server sys)) (Number arg0) msg ->
  exists st' flags,
    command Number s None arg0 sys = ([SendTurnTaken arg0], Ok st', flags) /\
    board st' = board (server sys) /\
    Emit s "turn" (PStr msg) ∈ response (server sys) st' /\
    forall t, flags t = isTurn sys t.
Proof.
  intros Hturn Harg Hreg Hrej. rewrite command_move by done.
  cbn [handle]. rewrite dispatch_registered.
  destruct (run_handlers_rejection s (Number arg0) msg
              (registered s (listeners (server sys))) (server sys) Hrej)
    as (st' & -> & _ & _ & Hbd & _ & Hsent).
  exists st'. eexists. split; [reflexivity |]. split; [exact Hbd |].
  cbn [final]. rewrite (response_app _ _ _ Hsent).
  destruct (registered s (listeners (server sys))) as [|sym syms]; [done |].
  cbn [length prompts]. split; [apply list_elem_of_here |].
  intros t. cbn [deliver String.eqb Ascii.eqb Bool.eqb].
  assert (Hrest : forall n flags, flags s = true ->
                    deliver (prompts s msg n) flags s = true /\
                    forall t', t' <> s ->
                      deliver (prompts s msg n) flags t' = flags t').
  { induction n as [|n IH]; intros flags Hs; [done |].
    cbn [prompts deliver String.eqb Ascii.eqb Bool.eqb].
    destruct (IH (set_flag s true flags)) as [IH1 IH2].
    - unfold set_flag. by destruct (decide (s = s)).
    - split; [done |]. intros t' Ht'. rewrite IH2 by done.
      unfold set_flag. by destruct (decide (t' = s)). }
  destruct (Hrest (length syms) (set_flag s true (set_flag s false (isTurn sys))))
    as [H1 H2].
  { unfold set_flag. by destruct (decide (s = s)). }
  destruct (decide (t = s)) as [-> | Hts].
  - by rewrite H1, Hturn.
  - rewrite H2 by done. unfold set_flag. by destruct (decide (t = s)).
Qed.

Lemma rejected_command_returns_the_turn_witness :
  let sys := mkSystem (session 1 2 [X; Dot; Dot; Dot; Dot; Dot; Dot; Dot; Dot])
                      (fun t => Nat.eqb t 2) in
  let Number := fun _ : option string => typed 1 in
  exists st' flags,
    command Number 2%nat None (Some "1") sys = ([SendTurnTaken (Some "1")], Ok st', flags) /\
    board st' = board (server sys) /\
    Emit 2%nat "turn" (PStr msg_occupied) ∈ response (server sys) st' /\
    forall t, flags t = isTurn sys t.
Proof.
  intros sys Number.
  apply (rejected_command_returns_the_turn Number sys 2%nat (Some "1") msg_occupied);
    [reflexivity | discriminate | discriminate |].
  apply (occupied _ _ 0%nat); [by repeat split | reflexivity | discriminate].
Defined.

Lemma wire_nil_grants_nothing console t :
  wire console = [] -> Forall (fun e => ~ grants t e) console.
Proof.
  induction console as [|e console IH]; [by constructor |].
  destruct e; cbn; try discriminate. intros H. constructor; [| by apply IH].
  by intros [data ?].
Qed.

Lemma hang_up_grants_nothing st tr t :
  Forall (hang_up_entry st) tr -> Forall (fun e => ~ grants t e) tr.
Proof.
  intros Htr. eapply Forall_impl; [exact Htr |]. intros e He [data ->].
  by apply hang_up_entry_emit in He as [? _].
Qed.

Lemma to_players_grants_nothing st event data t :
  event <> "turn" -> Forall (fun e => ~ grants t e) (to_players st event data).
Proof.
  intros Hev. apply Forall_forall. intros e (t' & _ & ->)%to_players_elem [data' [=]].
  congruence.
Qed.

Lemma leave_grants_nothing st s sym e t :
  leaves s e -> registered s (listeners st) = [sym] ->
  exists st', handle e st = Ok st' /\
              Forall (fun e' => ~ grants t e') (response st st').
Proof.
  intros Hleaves Hreg. rewrite (handle_leaves _ _ _ Hleaves), Hreg, run_handlers_one.
  destruct (on_arrival_fields e st) as (A1 & A2 & _ & _ & A5).
  destruct (leave_handler_fields e s sym (on_arrival e st))
    as (st' & console & tr & -> & _ & _ & _ & Hsent & Hwire & Htr).
  rewrite A5 in Hsent.
  exists st'. split; [done |]. rewrite (response_app _ _ _ Hsent).
  rewrite !Forall_app. split; [by apply wire_nil_grants_nothing |]. split.
  - by apply to_players_grants_nothing.
  - by apply (hang_up_grants_nothing (on_arrival e st)).
Qed.

(** At most one of the two loop clients holds the turn: if their flags are
    not both set before a command, whatever one of the players enters, they
    are not both set after the server has handled it. *)
Theorem at_most_one_client_holds_the_turn
    (Number : option string -> number) sys a b sym err arg0 :
  started a b (server sys) -> sym <> Dot ->
  (isTurn sys a && isTurn sys b)%bool = false ->
  let flags := snd (command Number (player a b sym) err arg0 sys) in
  (flags a && flags b)%bool = false.
Proof.
  intros Hst Hsym Hone flags.
  set (s := player a b sym). set (o := player a b (opponent sym)).
  assert (Hab : a <> b).
  { destruct Hst as (_ & _ & _ & Hra & Hrb). intros ->. congruence. }
  assert (Hso : s <> o) by (subst s o; destruct sym; cbn; congruence).
  assert (Hreg : registered s (listeners (server sys)) = [sym]).
  { destruct Hst as (_ & _ & _ & Hra & Hrb). subst s. by destruct sym. }
  assert (Hgoal : forall f : socket -> bool,
             f s = false \/ f o = false -> (f a && f b)%bool = false).
  { intros f. subst s o. destruct sym; [done | |]; cbn [player opponent];
      intros [-> | ->]; by rewrite ?andb_false_r. }
  assert (Hother : isTurn sys s = true -> isTurn sys o = false).
  { subst s o. destruct sym; [done | |]; cbn [player opponent]; intros H;
      rewrite H in Hone; by rewrite ?andb_true_r in Hone. }
  subst flags. unfold command, on_command. fold s.
  destruct (decide (arg0 = Some "r")) as [_ | Harg].
  { rewrite (receive_one Number s _ (Resign s)) by done. cbn [snd].
    destruct (leave_grants_nothing (server sys) s sym (Resign s) a
                (leaves_resign s) Hreg) as (st' & Hh & Hna).
    destruct (leave_grants_nothing (server sys) s sym (Resign s) b
                (leaves_resign s) Hreg) as (st'' & Hh' & Hnb).
    rewrite Hh in *. injection Hh' as <-. cbn [final].
    rewrite !deliver_not_granted by done. unfold set_flag.
    destruct (decide (a = s)) as [E1 |], (decide (b = s)) as [E2 |];
      try congruence; rewrite <- ?E1, <- ?E2; done. }
  destruct (isTurn sys s) eqn:Hturn; cycle 1.
  { cbn [receive to_event final snd]. apply Hgoal. left.
    unfold response. rewrite drop_all. cbn [deliver]. unfold set_flag.
    destruct (decide (s = s)); [| done]. done. }
  assert (Hsfalse : forall es, Forall (fun e => ~ grants s e) es ->
                      deliver es (set_flag s false (isTurn sys)) s = false).
  { intros es Hes. rewrite deliver_not_granted by done. unfold set_flag.
    by destruct (decide (s = s)). }
  destruct err as [e0|].
  { rewrite (receive_one Number s _ (TurnError s e0)) by done. cbn [snd].
    destruct (leave_grants_nothing (server sys) s sym (TurnError s e0) s
                (leaves_turn_error s e0) Hreg) as (st' & -> & Hn).
    apply Hgoal. left. by apply Hsfalse. }
  rewrite (receive_one Number s _ (TurnTaken s (Number arg0))) by done. cbn [snd].
  pose proof (handle_turn_taken_started a b sym (Number arg0) (server sys) Hst Hsym)
    as Hhandle.
  fold s in Hhandle. rewrite Hhandle.
  destruct (on_turn_taken_cases s sym (Number arg0) (server sys))
    as [(msg & Hrej & ->) | (i & Hin & Hi & Hdot & ->)].
  - apply Hgoal. right. cbn [final].
    rewrite (response_app _ _ _ (rejected_sent s msg (server sys))).
    rewrite deliver_not_granted.
    + unfold set_flag. destruct (decide (o = s)); [congruence |]. by apply Hother.
    + repeat (once constructor); intros [data H];
        first [discriminate H | inversion H; congruence].
  - apply Hgoal. left. apply Hsfalse.
    pose proof Hst as (Ha & Hb & _).
    destruct (game_over_on (<[i := sym]> (board (server sys)))) eqn:Hover.
    + destruct (accept_move_over_sent s sym i (server sys) Hover) as (tr & Hsent & Htr).
      rewrite (response_app _ _ _ Hsent), !Forall_app.
      split; [by apply to_players_grants_nothing |].
      split; [by apply to_players_grants_nothing |].
      split; [by apply (hang_up_grants_nothing (server sys)) |].
      repeat constructor. intros [data H]; discriminate H.
    + rewrite (accept_move_goes_on _ _ _ _ o)
        by (done || by apply next_player_started).
      cbn [final]. erewrite response_app; cycle 1.
      { cbn [log emit sent]. rewrite written_sent, Ha, Hb. cbn [app].
        rewrite <- !app_assoc. reflexivity. }
      repeat (once constructor); intros [data H];
        first [discriminate H | inversion H; congruence].
Qed.

Lemma at_most_one_client_holds_the_turn_witness :
  let sys := mkSystem (session 1 2 empty_board) (fun t => Nat.eqb t 1) in
  let Number := fun _ : option string => typed 5 in
  let flags := snd (command Number 1%nat None (Some "5") sys) in
  (flags 1%nat && flags 2%nat)%bool = false.
Proof.
  intros sys Number.
  apply (at_most_one_client_holds_the_turn Number sys 1%nat 2%nat X None (Some "5"));
    [by repeat split | discriminate | reflexivity].
Defined.

(** ** What the player sees *)

Lemma show_row_inj c1 c2 c3 d1 d2 d3 :
  show_cell (Some c1) +:+ " " +:+ show_cell (Some c2) +:+ " " +:+ show_cell (Some c3) =
  show_cell (Some d1) +:+ " " +:+ show_cell (Some d2) +:+ " " +:+ show_cell (Some d3) ->
  c1 = d1 /\ c2 = d2 /\ c3 = d3.
Proof.
  destruct c1, d1; cbn; try discriminate; intros H; injection H as H;
    destruct c2, d2; cbn in H; try discriminate; injection H as H;
    destruct c3, d3; cbn in H; try discriminate; done.
Qed.

Lemma on_board_update_inj bd bd' :
  length bd = 9%nat -> length bd' = 9%nat ->
  on_board_update bd = on_board_update bd' -> bd = bd'.
Proof.
  intros Hlen Hlen'.
  do 9 (destruct bd as [|? bd]; [discriminate Hlen |]).
  destruct bd; [| discriminate Hlen].
  do 9 (destruct bd' as [|? bd']; [discriminate Hlen' |]).
  destruct bd'; [| discriminate Hlen'].
  unfold on_board_update. cbn [lookup list_lookup].
  intros H. injection H as H1 H2 H3.
  apply show_row_inj in H1 as (-> & -> & ->).
  apply show_row_inj in H2 as (-> & -> & ->).
  apply show_row_inj in H3 as (-> & -> & ->).
  reflexivity.
Qed.

(** The display is faithful: two different boards of nine cells are never
    printed alike by the client's handler of [board_update]. *)
Theorem different_boards_are_displayed_differently bd bd' :
  length bd = 9%nat -> length bd' = 9%nat -> bd <> bd' ->
  on_board_update bd <> on_board_update bd'.
Proof. intros Hlen Hlen' Hne H. by apply Hne, on_board_update_inj. Qed.

Lemma different_boards_are_displayed_differently_witness :
  on_board_update [X; O; Dot; Dot; X; Dot; Dot; Dot; O] = [""; "x o ."; ". x ."; ". . o"] /\
  on_board_update [X; O; Dot; Dot; X; Dot; Dot; Dot; O] <>
  on_board_update [X; O; Dot; Dot; X; Dot; Dot; O; Dot].
Proof.
  split; [reflexivity |].
  apply (different_boards_are_displayed_differently
           [X; O; Dot; Dot; X; Dot; Dot; Dot; O] [X; O; Dot; Dot; X; Dot; Dot; O; Dot]);
    [reflexivity | reflexivity | discriminate].
Defined.
(** ** What [cleanUp] sets off *)

Lemma cleanUp_with_first d st a :
  firstPlayerSocket st = Some a ->
  cleanUp_with d st = cleanUp_with d (set_first None (d a st)).
Proof. intros H. unfold cleanUp_with. by rewrite H. Qed.

Lemma cleanUp_with_second d st b :
  firstPlayerSocket st = None -> secondPlayerSocket st = Some b ->
  cleanUp_with d st = set_board empty_board (set_second None (d b st)).
Proof. intros H1 H2. unfold cleanUp_with. by rewrite H1, H2. Qed.

Lemma cleanUp_with_none d st :
  firstPlayerSocket st = None -> secondPlayerSocket st = None ->
  cleanUp_with d st = set_board empty_board st.
Proof. intros H1 H2. unfold cleanUp_with. by rewrite H1, H2. Qed.

Lemma disconnect_connected run_listeners s st :
  s ∉ closed st ->
  disconnect run_listeners s st = run_listeners s (close s (log (SockDisconnect s) st)).
Proof.
  intros H. unfold disconnect, is_closed. cbn [log closed].
  by rewrite bool_decide_eq_false_2.
Qed.

Lemma disconnect_closed run_listeners s st :
  s ∈ closed st -> disconnect run_listeners s st = log (SockDisconnect s) st.
Proof.
  intros H. unfold disconnect, is_closed. cbn [log closed].
  by rewrite bool_decide_eq_true_2.
Qed.

Lemma disconnect_listeners_one cu s sym st :
  registered s (listeners st) = [sym] ->
  disconnect_listeners cu s st =
  announceWinnerByDisconnection_with cu (otherPlayerOrdinal sym) st.
Proof. intros H. unfold disconnect_listeners. by rewrite H. Qed.

Lemma started_distinct a b st : started a b st -> a <> b.
Proof. intros (_ & _ & _ & Hra & Hrb) ->. congruence. Qed.

(** [cleanUp] with both players connected. *)
Lemma cleanUp_both_connected st a b :
  started a b st -> a ∉ closed st -> b ∉ closed st ->
  sent (cleanUp st) = sent st ++ hang_up_trace a b /\
  closed (cleanUp st) = b :: a :: closed st.
Proof.
  intros Hst Hca Hcb. pose proof (started_distinct a b st Hst) as Hab.
  destruct Hst as (Ha & Hb & _ & Hra & Hrb).
  destruct st as [first second bd ls es cl]. cbn in Ha, Hb, Hra, Hrb, Hca, Hcb. subst.
  unfold cleanUp. rewrite cleanUp_at_eq.
  rewrite (cleanUp_with_first (disconnect (listeners_at 2)) _ a) by reflexivity.
  rewrite disconnect_connected by done. cbn [listeners_at].
  rewrite (disconnect_listeners_one _ _ X) by done.
  unfold announceWinnerByDisconnection_with. rewrite cleanUp_at_eq.
  rewrite (cleanUp_with_first (disconnect (listeners_at 1)) _ a) by reflexivity.
  rewrite disconnect_closed by (cbn; apply list_elem_of_here).
  rewrite (cleanUp_with_second (disconnect (listeners_at 1)) _ b) by reflexivity.
  rewrite disconnect_connected
    by (cbn; intros [? | ?]%elem_of_cons; [congruence | done]).
  cbn [listeners_at].
  rewrite (disconnect_listeners_one _ _ O) by done.
  unfold announceWinnerByDisconnection_with. rewrite cleanUp_at_eq.
  rewrite (cleanUp_with_second (disconnect (listeners_at 0)) _ b) by reflexivity.
  rewrite disconnect_closed by (cbn; apply list_elem_of_here).
  rewrite (cleanUp_with_none (disconnect (listeners_at 2))) by reflexivity.
  cbn. rewrite <- !app_assoc. done.
Qed.

(** [cleanUp] when the connection of the first player has ended. *)
Lemma cleanUp_first_gone st a b :
  started a b st -> a ∈ closed st -> b ∉ closed st ->
  sent (cleanUp st) =
  sent st ++ [SockDisconnect a; SockDisconnect b;
              Emit b "game_over" (PStr text_second_left); SockDisconnect b].
Proof.
  intros Hst Hca Hcb.
  destruct Hst as (Ha & Hb & _ & Hra & Hrb).
  destruct st as [first second bd ls es cl]. cbn in Ha, Hb, Hra, Hrb, Hca, Hcb. subst.
  unfold cleanUp. rewrite cleanUp_at_eq.
  rewrite (cleanUp_with_first (disconnect (listeners_at 2)) _ a) by reflexivity.
  rewrite disconnect_closed by done.
  rewrite (cleanUp_with_second (disconnect (listeners_at 2)) _ b) by reflexivity.
  rewrite disconnect_connected by done. cbn [listeners_at].
  rewrite (disconnect_listeners_one _ _ O) by done.
  unfold announceWinnerByDisconnection_with. rewrite cleanUp_at_eq.
  rewrite (cleanUp_with_second (disconnect (listeners_at 1)) _ b) by reflexivity.
  rewrite disconnect_closed by (cbn; apply list_elem_of_here).
  cbn. rewrite <- !app_assoc. done.
Qed.

(** [cleanUp] when the connection of the second player has ended. *)
Lemma cleanUp_second_gone st a b :
  started a b st -> a ∉ closed st -> b ∈ closed st ->
  sent (cleanUp st) =
  sent st ++ [SockDisconnect a;
              Emit a "game_over" (PStr text_first_left);
              Emit b "game_over" (PStr text_first_left);
              SockDisconnect a; SockDisconnect b].
Proof.
  intros Hst Hca Hcb.
  destruct Hst as (Ha & Hb & _ & Hra & Hrb).
  destruct st as [first second bd ls es cl]. cbn in Ha, Hb, Hra, Hrb, Hca, Hcb. subst.
  unfold cleanUp. rewrite cleanUp_at_eq.
  rewrite (cleanUp_with_first (disconnect (listeners_at 2)) _ a) by reflexivity.
  rewrite disconnect_connected by done. cbn [listeners_at].
  rewrite (disconnect_listeners_one _ _ X) by done.
  unfold announceWinnerByDisconnection_with. rewrite cleanUp_at_eq.
  rewrite (cleanUp_with_first (disconnect (listeners_at 1)) _ a) by reflexivity.
  rewrite disconnect_closed by (cbn; apply list_elem_of_here).
  rewrite (cleanUp_with_second (disconnect (listeners_at 1)) _ b) by reflexivity.
  rewrite disconnect_closed by (cbn; by apply list_elem_of_further).
  rewrite (cleanUp_with_none (disconnect (listeners_at 2))) by reflexivity.
  cbn. rewrite <- !app_assoc. done.
Qed.

Lemma cleanUp_idempotent st : cleanUp (cleanUp st) = cleanUp st.
Proof.
  destruct (cleanUp_fields st) as (H1 & H2 & H3 & _).
  rewrite (cleanUp_empty (cleanUp st)) by done.
  destruct (cleanUp st). cbn in *. by subst.
Qed.

(** [cleanUp] does not only disconnect the players. With both players
    connected and their handlers registered once, its call of [disconnect]
    on the first player's socket runs that socket's ['disconnect'] listener
    before the variable is cleared: the listener announces the second
    player as the winner to both sockets and runs [cleanUp] again, which
    then disconnects the second player, whose listener announces the first
    player as the winner. Three [game_over] go out, and [disconnect] is
    called twice on each socket. Afterwards both connections have ended and
    a further [cleanUp] changes nothing. *)
Theorem cleanUp_runs_the_disconnect_listeners st a b :
  started a b st -> a ∉ closed st -> b ∉ closed st ->
  response st (cleanUp st) =
    [SockDisconnect a;
     Emit a "game_over" (PStr "won by second player since first player disconnected");
     Emit b "game_over" (PStr "won by second player since first player disconnected");
     SockDisconnect a; SockDisconnect b;
     Emit b "game_over" (PStr "won by first player since second player disconnected");
     SockDisconnect b] /\
  closed (cleanUp st) = b :: a :: closed st /\
  registry_empty (cleanUp st) /\
  cleanUp (cleanUp st) = cleanUp st.
Proof.
  intros Hst Hca Hcb.
  destruct (cleanUp_both_connected st a b Hst Hca Hcb) as [Hsent Hclosed].
  destruct (cleanUp_fields st) as (H1 & H2 & _).
  split; [by apply response_app |]. split; [done |]. split; [by split |].
  apply cleanUp_idempotent.
Qed.

Lemma cleanUp_runs_the_disconnect_listeners_witness :
  let st := session 1 2 [X; Dot; Dot; Dot; O; Dot; Dot; Dot; Dot] in
  response st (cleanUp st) =
    [SockDisconnect 1;
     Emit 1 "game_over" (PStr "won by second player since first player disconnected");
     Emit 2 "game_over" (PStr "won by second player since first player disconnected");
     SockDisconnect 1; SockDisconnect 2;
     Emit 2 "game_over" (PStr "won by first player since second player disconnected");
     SockDisconnect 2] /\
  closed (cleanUp st) = [2; 1]%nat /\
  registry_empty (cleanUp st) /\
  cleanUp (cleanUp st) = cleanUp st.
Proof.
  intros st.
  apply (cleanUp_runs_the_disconnect_listeners st 1%nat 2%nat).
  - by repeat split.
  - by intros ?%elem_of_nil.
  - by intros ?%elem_of_nil.
Defined.

(** A move that ends a game between two connected players, with the
    handlers registered once: after the board and the outcome, the trace
    has what [cleanUp] sets off, so that five [game_over] go out in all,
    the later ones naming winners of their own, and then the
    acknowledgement. *)
Theorem game_ending_move_sends_five_game_over st a b sym input i :
  started a b st -> a ∉ closed st -> b ∉ closed st -> sym <> Dot ->
  in_bounds (board st) input -> array_index (js_pred input) = Some i ->
  board st !! i = Some Dot ->
  game_over_on (<[i := sym]> (board st)) = true ->
  let bd := <[i := sym]> (board st) in
  exists st',
    handle (TurnTaken (player a b sym) input) st = Ok st' /\
    response st st' =
      [Emit a "board_update" (PBoard bd); Emit b "board_update" (PBoard bd);
       Emit a "game_over" (PStr (outcome_text bd));
       Emit b "game_over" (PStr (outcome_text bd));
       SockDisconnect a;
       Emit a "game_over" (PStr "won by second player since first player disconnected");
       Emit b "game_over" (PStr "won by second player since first player disconnected");
       SockDisconnect a; SockDisconnect b;
       Emit b "game_over" (PStr "won by first player since second player disconnected");
       SockDisconnect b;
       Next (player a b sym)].
Proof.
  intros Hst Hca Hcb Hsym Hin Hi Hdot Hover bd.
  rewrite handle_turn_taken_started by done.
  rewrite (on_turn_taken_accepted _ _ _ i) by done.
  rewrite accept_move_over by done. fold bd.
  eexists. split; [reflexivity |].
  apply response_app. rewrite log_sent. unfold announce.
  set (st1 := emitToAll "game_over" _ _).
  destruct (written_fields sym i st) as (W1 & W2 & W3 & W4).
  destruct (emitToAll_fields "game_over" (PStr (outcome_text bd)) (written sym i st))
    as (E1 & E2 & E3 & E4).
  pose proof Hst as (Ha & Hb & Hlen & Hra & Hrb).
  assert (Hst1 : started a b st1).
  { unfold started. subst st1. rewrite E1, E2, E3, E4, W1, W2, W3, W4, length_insert. done. }
  destruct (cleanUp_both_connected st1 a b Hst1) as [Hsent _].
  - subst st1. by rewrite emitToAll_closed; unfold written; rewrite emitToAll_closed.
  - subst st1. by rewrite emitToAll_closed; unfold written; rewrite emitToAll_closed.
  - rewrite Hsent. subst st1. rewrite emitToAll_sent, W1, W2, written_sent, Ha, Hb.
    cbn [app]. by rewrite <- !app_assoc.
Qed.

Lemma game_ending_move_sends_five_game_over_witness :
  let st := session 1 2 [X; X; Dot; O; O; Dot; Dot; Dot; Dot] in
  let bd := [X; X; X; O; O; Dot; Dot; Dot; Dot] in
  exists st',
    handle (TurnTaken 1 (typed 3)) st = Ok st' /\
    response st st' =
      [Emit 1 "board_update" (PBoard bd); Emit 2 "board_update" (PBoard bd);
       Emit 1 "game_over" (PStr "won by first player");
       Emit 2 "game_over" (PStr "won by first player");
       SockDisconnect 1;
       Emit 1 "game_over" (PStr "won by second player since first player disconnected");
       Emit 2 "game_over" (PStr "won by second player since first player disconnected");
       SockDisconnect 1; SockDisconnect 2;
       Emit 2 "game_over" (PStr "won by first player since second player disconnected");
       SockDisconnect 2;
       Next 1].
Proof.
  intros st bd.
  apply (game_ending_move_sends_five_game_over st 1%nat 2%nat X (typed 3) 2%nat).
  - by repeat split.
  - by intros ?%elem_of_nil.
  - by intros ?%elem_of_nil.
  - discriminate.
  - by repeat split.
  - reflexivity.
  - reflexivity.
  - reflexivity.
Defined.

(** When a player leaves a game between two connected players, with the
    handlers registered once, [game_over] naming the other player as the
    winner is followed by what [cleanUp] sets off. After a resignation or
    an input error both sockets are still connected, and both listeners
    of ['disconnect'] run. After a disconnection the socket of the player
    who left is no longer connected, and only the listener of the other
    player runs: it announces the player who left as the winner. *)
Theorem leaving_sets_off_further_game_over st a b sym e :
  started a b st -> a ∉ closed st -> b ∉ closed st -> sym <> Dot ->
  leaves (player a b sym) e ->
  exists st', handle e st = Ok st' /\ wire (response st st') = leave_wire a b sym e.
Proof.
  intros Hst Hca Hcb Hsym Hleaves.
  pose proof (started_distinct a b st Hst) as Hab.
  rewrite (handle_leaves _ _ _ Hleaves).
  pose proof Hst as (Ha & Hb & Hlen & Hra & Hrb).
  assert (Hreg : registered (player a b sym) (listeners st) = [sym]) by (by destruct sym).
  rewrite Hreg, run_handlers_one.
  destruct (leave_handler_eq e (player a b sym) sym (on_arrival e st) Hsym)
    as (console & Hconsole & ->).
  eexists. split; [reflexivity |].
  set (text := leave_text e (ordinal (opponent sym)) (ordinal sym)).
  set (st0 := mkState _ _ _ _ _ _). unfold announce.
  set (st1 := emitToAll "game_over" (PStr text) st0).
  destruct (on_arrival_fields e st) as (A1 & A2 & A3 & A4 & A5).
  destruct (emitToAll_fields "game_over" (PStr text) st0) as (E1 & E2 & E3 & E4).
  assert (Hst1 : started a b st1).
  { unfold started. subst st1 st0. rewrite E1, E2, E3, E4. cbn. by rewrite A1, A2, A3, A4. }
  assert (Hcl1 : closed st1 = closed (on_arrival e st)).
  { subst st1 st0. by rewrite emitToAll_closed. }
  assert (Hsent1 : sent st1 = sent st ++ console ++
                     [Emit a "game_over" (PStr text); Emit b "game_over" (PStr text)]).
  { subst st1 st0. rewrite emitToAll_sent. cbn. by rewrite A1, A2, A5, Ha, Hb, <- app_assoc. }
  assert (Hwire : forall tr, wire tr = tr -> sent (cleanUp st1) = sent st1 ++ tr ->
            wire (response st (cleanUp st1)) =
            [Emit a "game_over" (PStr text); Emit b "game_over" (PStr text)] ++ tr).
  { intros tr Htr Hs. rewrite Hsent1, <- !app_assoc in Hs.
    rewrite (response_app _ _ _ Hs), !wire_app, Hconsole, Htr. done. }
  unfold leave_wire. fold text.
  destruct Hleaves as [| | err]; cbn [on_arrival] in Hcl1.
  - destruct sym; [done | |]; cbn [player] in *.
    + apply Hwire; [done |]. apply cleanUp_first_gone; [done | |].
      * rewrite Hcl1. apply list_elem_of_here.
      * rewrite Hcl1. intros [? | ?]%elem_of_cons; [congruence | done].
    + apply Hwire; [done |]. apply cleanUp_second_gone; [done | |].
      * rewrite Hcl1. intros [? | ?]%elem_of_cons; [congruence | done].
      * rewrite Hcl1. apply list_elem_of_here.
  - apply Hwire; [done |]. apply cleanUp_both_connected; [done | |]; by rewrite Hcl1.
  - apply Hwire; [done |]. apply cleanUp_both_connected; [done | |]; by rewrite Hcl1.
Qed.

Lemma leaving_sets_off_further_game_over_witness :
  let st := session 1 2 [X; Dot; Dot; Dot; O; Dot; Dot; Dot; Dot] in
  exists st',
    handle (Resign 2) st = Ok st' /\
    wire (response st st') =
      [Emit 1 "game_over" (PStr "won by first player due to resignation");
       Emit 2 "game_over" (PStr "won by first player due to resignation");
       SockDisconnect 1;
       Emit 1 "game_over" (PStr "won by second player since first player disconnected");
       Emit 2 "game_over" (PStr "won by second player since first player disconnected");
       SockDisconnect 1; SockDisconnect 2;
       Emit 2 "game_over" (PStr "won by first player since second player disconnected");
       SockDisconnect 2].
Proof.
  intros st.
  apply (leaving_sets_off_further_game_over st 1%nat 2%nat O (Resign 2)).
  - by repeat split.
  - by intros ?%elem_of_nil.
  - by intros ?%elem_of_nil.
  - discriminate.
  - apply leaves_resign.
Defined.
